(** * QueuedStoreGroup: change-set tracker and flush gate

    A shallow embedding of [src/QueuedStoreGroup.ts].  The group object, the
    arrays it mutates in place, the listener tables of the host event emitter
    and the observable traces (emitted notifications, invoked release
    handlers) are threaded explicitly as one [World] value. *)

From Stdlib Require Import ZArith Bool Lia.
From stdpp Require Import base option list strings pretty.

Set Warnings "-register-all,-clear-no-such-hyp".

(** ** References

    Stores, subscriber functions and use cases are compared by reference in
    the source ([indexOf], [removeListener]); a reference is a number. *)

Definition Store := nat.
Definition Handler := nat.
Definition UseCase := nat.
Definition FunctionRef := nat.
Definition loc := nat.

(** ** Dispatch payloads and their metadata *)

Inductive Payload :=
| ErrorPayload
| DidExecutedPayload
| CompletedPayload
| OtherPayload.

Definition isDidExecutedPayload (payload : Payload) : bool :=
  match payload with DidExecutedPayload => true | _ => false end.

Definition isErrorPayload (payload : Payload) : bool :=
  match payload with ErrorPayload => true | _ => false end.

Definition isCompletedPayload (payload : Payload) : bool :=
  match payload with CompletedPayload => true | _ => false end.

Record DispatcherPayloadMeta := {
  isTrusted : bool;
  parentUseCase : option UseCase
}.

(** JavaScript truthiness of the two kinds of tested values: a field that is
    [undefined] (never assigned) or a boolean, and a reference that may be
    [null]. *)

Definition truthy (flag : option bool) : bool :=
  match flag with Some true => true | _ => false end.

Definition nonNull {A} (ref : option A) : bool :=
  match ref with Some _ => true | None => false end.

(** ** Host event emitter

    The group extends the framework's [Dispatcher], an event emitter.  Three
    listener tables matter: the closures the group registers on each store's
    change event, the listeners of the group's own dispatch stream, and the
    subscribers of [CHANGE_STORE_GROUP].  [removeListener] deletes the most
    recently registered occurrence of a function, as the emitter does. *)

Inductive DispatchListener :=
| delegatePayload (fn : FunctionRef) (toDispatcher : Store)
| tryToEmitChangeListener (fn : FunctionRef).

Definition dispatchListenerRef (l : DispatchListener) : FunctionRef :=
  match l with
  | delegatePayload fn _ => fn
  | tryToEmitChangeListener fn => fn
  end.

(** What a release handler removes when it is called: each one is a
    [removeListener] bound to its event and its listener. *)
Inductive ReleaseHandler :=
| RemoveStoreChangeListener (store : Store) (fn : FunctionRef)
| RemoveDispatchListener (fn : FunctionRef)
| RemoveChangeStoreGroupListener (handler : Handler).

Fixpoint removeListener {A} (same : A -> bool) (listeners : list A) : list A :=
  match listeners with
  | [] => []
  | x :: rest =>
      if same x && negb (existsb same rest) then rest
      else x :: removeListener same rest
  end.

(** ** The world: the group object, the array heap, the emitter, the traces *)

Record World := mkWorld {
  (* fields of the QueuedStoreGroup object *)
  _releaseHandlers : list ReleaseHandler;
  _currentChangingStores : loc;
  stores : list Store;
  _isAnyOneStoreChanged : option bool;
  (* the constructor's [asap], captured by the dispatch closure *)
  asap : bool;
  (* arrays of stores, by address *)
  heap : list (list Store);
  (* listener tables *)
  storeListeners : list (Store * FunctionRef);
  dispatchListeners : list DispatchListener;
  changeListeners : list Handler;
  nextFunctionRef : FunctionRef;
  (* traces: arguments of emit(CHANGE_STORE_GROUP, _), deliveries to
     subscribers, calls of release handlers *)
  emitted : list loc;
  delivered : list (Handler * loc);
  invoked : list ReleaseHandler
}.

Definition set_releaseHandlers (v : list ReleaseHandler) (w : World) : World :=
  mkWorld v (_currentChangingStores w) (stores w) (_isAnyOneStoreChanged w)
    (asap w) (heap w) (storeListeners w) (dispatchListeners w)
    (changeListeners w) (nextFunctionRef w) (emitted w) (delivered w) (invoked w).

Definition set_isAnyOneStoreChanged (v : option bool) (w : World) : World :=
  mkWorld (_releaseHandlers w) (_currentChangingStores w) (stores w) v
    (asap w) (heap w) (storeListeners w) (dispatchListeners w)
    (changeListeners w) (nextFunctionRef w) (emitted w) (delivered w) (invoked w).

Definition set_heap (v : list (list Store)) (w : World) : World :=
  mkWorld (_releaseHandlers w) (_currentChangingStores w) (stores w)
    (_isAnyOneStoreChanged w) (asap w) v (storeListeners w)
    (dispatchListeners w) (changeListeners w) (nextFunctionRef w) (emitted w)
    (delivered w) (invoked w).

Definition set_storeListeners (v : list (Store * FunctionRef)) (w : World) : World :=
  mkWorld (_releaseHandlers w) (_currentChangingStores w) (stores w)
    (_isAnyOneStoreChanged w) (asap w) (heap w) v (dispatchListeners w)
    (changeListeners w) (nextFunctionRef w) (emitted w) (delivered w) (invoked w).

Definition set_dispatchListeners (v : list DispatchListener) (w : World) : World :=
  mkWorld (_releaseHandlers w) (_currentChangingStores w) (stores w)
    (_isAnyOneStoreChanged w) (asap w) (heap w) (storeListeners w) v
    (changeListeners w) (nextFunctionRef w) (emitted w) (delivered w) (invoked w).

Definition set_changeListeners (v : list Handler) (w : World) : World :=
  mkWorld (_releaseHandlers w) (_currentChangingStores w) (stores w)
    (_isAnyOneStoreChanged w) (asap w) (heap w) (storeListeners w)
    (dispatchListeners w) v (nextFunctionRef w) (emitted w) (delivered w)
    (invoked w).

Definition set_nextFunctionRef (v : FunctionRef) (w : World) : World :=
  mkWorld (_releaseHandlers w) (_currentChangingStores w) (stores w)
    (_isAnyOneStoreChanged w) (asap w) (heap w) (storeListeners w)
    (dispatchListeners w) (changeListeners w) v (emitted w) (delivered w)
    (invoked w).

Definition set_emitted (v : list loc) (w : World) : World :=
  mkWorld (_releaseHandlers w) (_currentChangingStores w) (stores w)
    (_isAnyOneStoreChanged w) (asap w) (heap w) (storeListeners w)
    (dispatchListeners w) (changeListeners w) (nextFunctionRef w) v
    (delivered w) (invoked w).

Definition set_delivered (v : list (Handler * loc)) (w : World) : World :=
  mkWorld (_releaseHandlers w) (_currentChangingStores w) (stores w)
    (_isAnyOneStoreChanged w) (asap w) (heap w) (storeListeners w)
    (dispatchListeners w) (changeListeners w) (nextFunctionRef w) (emitted w)
    v (invoked w).

Definition set_invoked (v : list ReleaseHandler) (w : World) : World :=
  mkWorld (_releaseHandlers w) (_currentChangingStores w) (stores w)
    (_isAnyOneStoreChanged w) (asap w) (heap w) (storeListeners w)
    (dispatchListeners w) (changeListeners w) (nextFunctionRef w) (emitted w)
    (delivered w) v.

(** ** Arrays *)

Definition readArray (h : list (list Store)) (a : loc) : list Store :=
  default [] (h !! a).

(** [array.indexOf(x)]: the first index holding [x], or -1. *)
Fixpoint indexOf (array : list Store) (x : Store) : Z :=
  match array with
  | [] => (-1)%Z
  | y :: rest =>
      if Nat.eqb y x then 0%Z
      else let i := indexOf rest x in
           if (i =? -1)%Z then (-1)%Z else (i + 1)%Z
  end.

(** [this.currentChangingStores]: the getter hands out the array itself. *)
Definition currentChangingStores (w : World) : list Store :=
  readArray (heap w) (_currentChangingStores w).

(** [get hasChangingStore] *)
Definition hasChangingStore (w : World) : bool :=
  negb (length (currentChangingStores w) =? 0).

(** [_pruneCurrentChangingStores]: [length = 0] empties the array in place. *)
Definition _pruneCurrentChangingStores (w : World) : World :=
  set_heap (<[_currentChangingStores w := []]> (heap w)) w.

(** [this._currentChangingStores.push(store)] *)
Definition push (store : Store) (w : World) : World :=
  set_heap (<[_currentChangingStores w := currentChangingStores w ++ [store]]> (heap w)) w.

(** [this._currentChangingStores.slice()]: a new array with the same
    elements; its address is returned. *)
Definition slice (w : World) : loc * World :=
  (length (heap w), set_heap (heap w ++ [currentChangingStores w]) w).

(** [this.emit(CHANGE_STORE_GROUP, arg)]: every subscriber is handed [arg]. *)
Definition emit (arg : loc) (w : World) : World :=
  set_delivered (delivered w ++ map (fun h => (h, arg)) (changeListeners w))
    (set_emitted (emitted w ++ [arg]) w).

(** ** Methods of the group *)

(** The closure [_registerStore] puts on the change event of [store]. *)
Definition onStoreChange (store : Store) (w : World) : World :=
  let w1 := if negb (truthy (_isAnyOneStoreChanged w))
            then _pruneCurrentChangingStores w else w in
  let w2 := set_isAnyOneStoreChanged (Some true) w1 in
  let isStoreAlreadyChanging :=
    negb (indexOf (currentChangingStores w2) store =? -1)%Z in
  if isStoreAlreadyChanging then w2 else push store w2.

Definition emitChange (w : World) : World :=
  if negb (truthy (_isAnyOneStoreChanged w)) then w
  else
    let '(changingStores, w1) := slice w in
    let w2 := emit changingStores w1 in
    set_isAnyOneStoreChanged (Some false) w2.

(** The closure [tryToEmitChange] of the constructor. *)
Definition tryToEmitChange (payload : Payload) (meta : DispatcherPayloadMeta)
    (w : World) : World :=
  if negb (isTrusted meta) then
    if hasChangingStore w then emitChange w else w
  else if isErrorPayload payload then
    if hasChangingStore w then emitChange w else w
  else if isDidExecutedPayload payload then
    let parent := parentUseCase meta in
    if negb (asap w) && nonNull parent then w
    else if hasChangingStore w then emitChange w else w
  else if isCompletedPayload payload then
    let parent := parentUseCase meta in
    if negb (asap w) && nonNull parent then w
    else if hasChangingStore w then emitChange w else w
  else w.

(** [_registerStore(store)]: a change listener on the store, a pipe from the
    group's dispatch stream to the store, and their two release handlers
    appended by [concat]. *)
Definition _registerStore (store : Store) (w : World) : World :=
  let onChangeFn := nextFunctionRef w in
  let pipeFn := S (nextFunctionRef w) in
  let w1 := set_storeListeners (storeListeners w ++ [(store, onChangeFn)]) w in
  let releaseOnChangeHandler := RemoveStoreChangeListener store onChangeFn in
  let w2 := set_dispatchListeners
              (dispatchListeners w1 ++ [delegatePayload pipeFn store]) w1 in
  let releaseOnDispatchHandler := RemoveDispatchListener pipeFn in
  set_nextFunctionRef (S (S (nextFunctionRef w)))
    (set_releaseHandlers
       (_releaseHandlers w2 ++ [releaseOnChangeHandler; releaseOnDispatchHandler])
       w2).

(** [onChange(handler)] returns the release handler it also records. *)
Definition onChange (handler : Handler) (w : World) : ReleaseHandler * World :=
  let w1 := set_changeListeners (changeListeners w ++ [handler]) w in
  let releaseHandler := RemoveChangeStoreGroupListener handler in
  (releaseHandler, set_releaseHandlers (_releaseHandlers w1 ++ [releaseHandler]) w1).

(** Calling one release handler. *)
Definition callReleaseHandler (releaseHandler : ReleaseHandler) (w : World) : World :=
  let w1 := set_invoked (invoked w ++ [releaseHandler]) w in
  match releaseHandler with
  | RemoveStoreChangeListener store fn =>
      set_storeListeners
        (removeListener (fun l => Nat.eqb (fst l) store && Nat.eqb (snd l) fn)
           (storeListeners w1)) w1
  | RemoveDispatchListener fn =>
      set_dispatchListeners
        (removeListener (fun l => Nat.eqb (dispatchListenerRef l) fn)
           (dispatchListeners w1)) w1
  | RemoveChangeStoreGroupListener handler =>
      set_changeListeners
        (removeListener (Nat.eqb handler) (changeListeners w1)) w1
  end.

(** [release()]: [forEach] over the handlers, then [length = 0]. *)
Definition release (w : World) : World :=
  let w1 := fold_left (fun acc releaseHandler => callReleaseHandler releaseHandler acc)
              (_releaseHandlers w) w in
  set_releaseHandlers [] w1.

Section Constructor.

(** [StoreGroupValidator.validateStores] lives in another module; it either
    accepts the stores or throws. *)
Variable validateStores : list Store -> bool.

Definition constructor (stores0 : list Store) (options_asap : option bool)
    : option World :=
  if validateStores stores0 then
    let asap0 := match options_asap with Some b => b | None => false end in
    let w0 := mkWorld [] 0 stores0 None asap0 [[]] [] [] [] 0 [] [] [] in
    let w1 := fold_left (fun acc store => _registerStore store acc) stores0 w0 in
    let listenFn := nextFunctionRef w1 in
    let w2 := set_nextFunctionRef (S listenFn)
                (set_dispatchListeners
                   (dispatchListeners w1 ++ [tryToEmitChangeListener listenFn]) w1) in
    let unListenOnDispatch := RemoveDispatchListener listenFn in
    Some (set_releaseHandlers (_releaseHandlers w2 ++ [unListenOnDispatch]) w2)
  else None.

End Constructor.

(** ** Events of the host

    A store announcing a change runs the closures registered on it; an event
    on the group's dispatch stream runs the dispatch listeners in
    registration order.  A pipe forwards the event to its store and leaves
    the group untouched: whatever the store then announces arrives as
    [storeEmitChange]. *)

Definition storeEmitChange (store : Store) (w : World) : World :=
  fold_left
    (fun acc l => if Nat.eqb (fst l) store then onStoreChange (fst l) acc else acc)
    (storeListeners w) w.

Definition dispatch (payload : Payload) (meta : DispatcherPayloadMeta)
    (w : World) : World :=
  fold_left
    (fun acc l =>
       match l with
       | delegatePayload _ _ => acc
       | tryToEmitChangeListener _ => tryToEmitChange payload meta acc
       end)
    (dispatchListeners w) w.

(** What the surroundings can do with a group. *)
Inductive Op :=
| StoreChanges (store : Store)
| Dispatches (payload : Payload) (meta : DispatcherPayloadMeta)
| CallEmitChange
| CallOnChange (handler : Handler)
| CallReturnedReleaseHandler (handler : Handler)
| CallRelease.

Definition step (w : World) (op : Op) : World :=
  match op with
  | StoreChanges store => storeEmitChange store w
  | Dispatches payload meta => dispatch payload meta w
  | CallEmitChange => emitChange w
  | CallOnChange handler => snd (onChange handler w)
  | CallReturnedReleaseHandler handler =>
      callReleaseHandler (RemoveChangeStoreGroupListener handler) w
  | CallRelease => release w
  end.

Definition run (ops : list Op) (w : World) : World := fold_left step ops w.

(** ** State query

    Values a store may hand back from [getState()], as far as [typeof] and
    [Object.assign] tell them apart.  An object is its list of own enumerable
    properties; an array is an object whose keys are its indices. *)

Inductive JSValue :=
| JSUndefined
| JSNull
| JSBoolean (b : bool)
| JSNumber (bits : N)
| JSString (s : string)
| JSSymbol (id : nat)
| JSFunction (props : list (string * JSValue))
| JSObject (props : list (string * JSValue)).

Definition typeof (v : JSValue) : string :=
  match v with
  | JSUndefined => "undefined"
  | JSNull => "object"
  | JSBoolean _ => "boolean"
  | JSNumber _ => "number"
  | JSString _ => "string"
  | JSSymbol _ => "symbol"
  | JSFunction _ => "function"
  | JSObject _ => "object"
  end.

(** The primitive values of the language: everything but objects and
    functions. *)
Definition isPrimitive (v : JSValue) : bool :=
  match v with
  | JSFunction _ | JSObject _ => false
  | _ => true
  end.

(** The characters of a string, keyed by their index: what [Object(s)]
    enumerates. *)
Fixpoint indexedCharacters (i : nat) (s : string) : list (string * JSValue) :=
  match s with
  | EmptyString => []
  | String c rest =>
      (pretty i, JSString (String c EmptyString)) :: indexedCharacters (S i) rest
  end.

(** Own enumerable properties of [Object(v)]; [null] and [undefined] sources
    are skipped by [Object.assign]. *)
Definition ownEnumerableProperties (v : JSValue) : list (string * JSValue) :=
  match v with
  | JSObject props => props
  | JSFunction props => props
  | JSString s => indexedCharacters 0 s
  | _ => []
  end.


(** [to[key] = v] *)
Fixpoint setProperty (key : string) (v : JSValue) (to : list (string * JSValue))
    : list (string * JSValue) :=
  match to with
  | [] => [(key, v)]
  | (k, x) :: rest =>
      if String.eqb k key then (k, v) :: rest
      else (k, x) :: setProperty key v rest
  end.

(** [ObjectAssign(target, ...sources)] *)
Definition ObjectAssign (target : list (string * JSValue)) (sources : list JSValue)
    : list (string * JSValue) :=
  fold_left
    (fun to from =>
       fold_left (fun to' kv => setProperty (fst kv) (snd kv) to')
         (ownEnumerableProperties from) to)
    sources target.

Inductive Outcome (A : Type) :=
| Returned (value : A)
| AssertionError (message : string).
Arguments Returned {A} value.
Arguments AssertionError {A} message.

Definition quote : string := String (Ascii.ascii_of_nat 34) EmptyString.
Definition newline : string := String (Ascii.ascii_of_nat 10) EmptyString.

(** The tail of the assertion message, after the two interpolations. *)
Definition assertionHint : string :=
  ".getState() should return Object." +:+ newline +:+
  "e.g.)" +:+ newline +:+ newline +:+
  " class ExampleStore extends Store {" +:+ newline +:+
  "     getState(prevState) {" +:+ newline +:+
  "         return {" +:+ newline +:+
  "            StateName: state" +:+ newline +:+
  "         };" +:+ newline +:+
  "     }" +:+ newline +:+
  " }" +:+ newline +:+
  " " +:+ newline +:+
  "Then, use can access by StateName." +:+ newline +:+ newline +:+
  "StoreGroup#getState()[" +:+ quote +:+ "StateName" +:+ quote +:+ "]; // state"
  +:+ newline +:+ newline.

Section GetState.

(** The surroundings of one [getState()] call: the build mode and, for
    each store, its string conversion, its [name] and what its own
    [getState()] returns. *)
Variable production : bool.
Variable storeToString : Store -> string.
Variable storeName : Store -> string.
Variable storeGetState : Store -> JSValue.

Definition assertionMessage (store : Store) : string :=
  storeToString store +:+ ": " +:+ storeName store +:+ assertionHint.

(** [this.stores.map(store => ...)]: the first failing assertion aborts. *)
Fixpoint stateMapOf (ss : list Store) : Outcome (list JSValue) :=
  match ss with
  | [] => Returned []
  | store :: rest =>
      let nextState := storeGetState store in
      if negb production && negb (String.eqb (typeof nextState) "object")
      then AssertionError (assertionMessage store)
      else match stateMapOf rest with
           | Returned stateMap => Returned (nextState :: stateMap)
           | AssertionError m => AssertionError m
           end
  end.

Definition getState (w : World) : Outcome (list (string * JSValue)) :=
  match stateMapOf (stores w) with
  | Returned stateMap => Returned (ObjectAssign [] stateMap)
  | AssertionError m => AssertionError m
  end.

End GetState.

(** ** Predicates used by the statements *)

(** The internal array exists. *)
Definition wellFormed (w : World) : Prop :=
  _currentChangingStores w < length (heap w).

(** A raised flag comes with a non-empty array. *)
Definition flagHasStores (w : World) : Prop :=
  truthy (_isAnyOneStoreChanged w) = true -> currentChangingStores w <> [].

(** Worlds a constructed group can be in. *)
Definition reachable (w : World) : Prop :=
  exists validateStores stores0 options_asap w0 ops,
    constructor validateStores stores0 options_asap = Some w0 /\ w = run ops w0.

(** Each store once, in the order of its first occurrence. *)
Fixpoint firstChanges (changes : list Store) : list Store :=
  match changes with
  | [] => []
  | s :: rest => s :: filter (fun x => x <> s) (firstChanges rest)
  end.

Definition removedStoreListener (h : ReleaseHandler) : option (Store * FunctionRef) :=
  match h with RemoveStoreChangeListener store fn => Some (store, fn) | _ => None end.

Definition removedDispatchListener (h : ReleaseHandler) : option FunctionRef :=
  match h with RemoveDispatchListener fn => Some fn | _ => None end.

(** Every listener the group has registered on a store or on its dispatch
    stream has its release handler recorded, in the same order, and no
    closure is registered twice. *)
Definition listenersRecorded (w : World) : Prop :=
  (storeListeners w = omap removedStoreListener (_releaseHandlers w)) /\
  (map dispatchListenerRef (dispatchListeners w)
     = omap removedDispatchListener (_releaseHandlers w)) /\
  NoDup (map snd (storeListeners w)) /\
  NoDup (map dispatchListenerRef (dispatchListeners w)) /\
  Forall (fun fn => fn < nextFunctionRef w) (map snd (storeListeners w)) /\
  Forall (fun fn => fn < nextFunctionRef w)
    (map dispatchListenerRef (dispatchListeners w)).

(** No listener of the group is left on any store or on the dispatch stream. *)
Definition unplugged (w : World) : Prop :=
  storeListeners w = [] /\ dispatchListeners w = [].

(** [w'] has the internal array of [w] at the same address and every other
    array of [w] with its elements untouched. *)
Definition keepsOtherArrays (w w' : World) : Prop :=
  _currentChangingStores w' = _currentChangingStores w /\
  length (heap w) <= length (heap w') /\
  forall a, a < length (heap w) -> a <> _currentChangingStores w ->
    heap w' !! a = heap w !! a.

Definition demo : World :=
  default (mkWorld [] 0 [] None false [] [] [] [] 0 [] [] [])
    (constructor (fun _ => true) [7; 9] None).

(** What one run of the change closure does to the elements of the set. *)
Definition addStore (store : Store) (array : list Store) : list Store :=
  if (indexOf array store =? -1)%Z then array ++ [store] else array.

(** [w'] differs from [w] at most in the arrays, the flag and the
    notification traces. *)
Definition sameWiring (w w' : World) : Prop :=
  _releaseHandlers w' = _releaseHandlers w /\
  _currentChangingStores w' = _currentChangingStores w /\
  stores w' = stores w /\
  asap w' = asap w /\
  storeListeners w' = storeListeners w /\
  dispatchListeners w' = dispatchListeners w /\
  changeListeners w' = changeListeners w /\
  nextFunctionRef w' = nextFunctionRef w /\
  invoked w' = invoked w.

(** [w'] differs from [w] at most in the listener tables, the release
    handlers and their trace. *)
Definition sameChangeSet (w w' : World) : Prop :=
  _currentChangingStores w' = _currentChangingStores w /\
  _isAnyOneStoreChanged w' = _isAnyOneStoreChanged w /\
  heap w' = heap w /\
  emitted w' = emitted w /\
  delivered w' = delivered w.


Definition isTryToEmitChange (l : DispatchListener) : bool :=
  match l with tryToEmitChangeListener _ => true | delegatePayload _ _ => false end.

Definition listensTo (store : Store) (w : World) : bool :=
  existsb (fun l => Nat.eqb (fst l) store) (storeListeners w).

(** The group still has its closures on the dispatch stream and on each of
    its stores. *)
Definition plugged (w : World) : Prop :=
  existsb isTryToEmitChange (dispatchListeners w) = true /\
  forall store, store ∈ stores w -> listensTo store w = true.

Definition isRelease (op : Op) : bool :=
  match op with CallRelease => true | _ => false end.

(** Events of the host, as opposed to calls of the group's methods. *)
Definition isHostEvent (op : Op) : bool :=
  match op with
  | StoreChanges _ | Dispatches _ _ => true
  | _ => false
  end.

(** A group over the stores 7 and 9 with default options, and the same group
    once store 7 has announced a change. *)
Definition demoChanged : World := storeEmitChange 7 demo.

(** A use case running inside use case 1, reported by a user-dispatched
    payload. *)
Definition nestedUntrusted : DispatcherPayloadMeta :=
  {| isTrusted := false; parentUseCase := Some 1 |}.

Definition nestedTrusted : DispatcherPayloadMeta :=
  {| isTrusted := true; parentUseCase := Some 1 |}.

(** ** Test helper: [createStore]

    [test/helper/create-store.js] builds a store with a name and a state.
    The number carried by [JSNumber] is its IEEE-754 binary64 pattern: zero
    has exponent and fraction clear, NaN has the exponent full and a
    non-zero fraction. *)



Module CreateStore.

Record TestStore := {
  name : string;
  state : JSValue
}.



(** [getState()] returns [{[name]: this.state}]. *)
Definition getState (store : TestStore) : JSValue :=
  JSObject [(name store, state store)].

End CreateStore.

(** ** Further predicates *)

(** Whether the dispatch closure reaches a call of [emitChange] for this
    payload and metadata, apart from the test on the set. *)
Definition flushes (asap0 : bool) (payload : Payload)
    (meta : DispatcherPayloadMeta) : bool :=
  negb (isTrusted meta)
  || isErrorPayload payload
  || ((isDidExecutedPayload payload || isCompletedPayload payload)
      && (asap0 || negb (nonNull (parentUseCase meta)))).

Definition isFlushAttempt (op : Op) : bool :=
  match op with
  | Dispatches _ _ | CallEmitChange => true
  | _ => false
  end.

Definition isStoreChange (op : Op) : bool :=
  match op with StoreChanges _ => true | _ => false end.

Definition isSubscription (op : Op) : bool :=
  match op with CallOnChange _ => true | _ => false end.

Fixpoint countb {A} (f : A -> bool) (l : list A) : nat :=
  match l with
  | [] => 0
  | x :: rest => (if f x then 1 else 0) + countb f rest
  end.

(** One when a change waits for its flush. *)
Definition pending (w : World) : nat :=
  if truthy (_isAnyOneStoreChanged w) then 1 else 0.

(** The group listens to its own stores only. *)
Definition listenersOfGroup (w : World) : Prop :=
  forall l, l ∈ storeListeners w -> fst l ∈ stores w.

(** The set holds stores of the group, each once. *)
Definition setOfGroup (w : World) : Prop :=
  NoDup (currentChangingStores w) /\
  forall s, s ∈ currentChangingStores w -> s ∈ stores w.

(** Every emitted array is an array of its own, apart from the internal
    one, and holds stores of the group, at least one and each once. *)
Definition snapshotsSound (w : World) : Prop :=
  NoDup (emitted w) /\
  forall a, a ∈ emitted w ->
    a < length (heap w) /\
    a <> _currentChangingStores w /\
    readArray (heap w) a <> [] /\
    NoDup (readArray (heap w) a) /\
    forall s, s ∈ readArray (heap w) a -> s ∈ stores w.

(** The flag is still [undefined] exactly while the set is empty. *)
Definition flagTellsHistory (w : World) : Prop :=
  (_isAnyOneStoreChanged w = None -> currentChangingStores w = []) /\
  (_isAnyOneStoreChanged w <> None -> currentChangingStores w <> []).

Definition isRemovalOf (handler : Handler) (h : ReleaseHandler) : bool :=
  match h with
  | RemoveChangeStoreGroupListener handler' => Nat.eqb handler handler'
  | _ => false
  end.

(** Every subscription of a handler has a release handler recorded. *)
Definition subscribersRecorded (w : World) : Prop :=
  forall handler,
    countb (Nat.eqb handler) (changeListeners w)
    <= countb (isRemovalOf handler) (_releaseHandlers w).

(** The listeners and release handlers the constructor creates for its
    stores, the function references counted from [n]. *)
Fixpoint storeListenersFrom (n : FunctionRef) (ss : list Store)
    : list (Store * FunctionRef) :=
  match ss with
  | [] => []
  | s :: rest => (s, n) :: storeListenersFrom (S (S n)) rest
  end.

Fixpoint pipesFrom (n : FunctionRef) (ss : list Store) : list DispatchListener :=
  match ss with
  | [] => []
  | s :: rest => delegatePayload (S n) s :: pipesFrom (S (S n)) rest
  end.

Fixpoint releaseHandlersFrom (n : FunctionRef) (ss : list Store)
    : list ReleaseHandler :=
  match ss with
  | [] => []
  | s :: rest =>
      RemoveStoreChangeListener s n :: RemoveDispatchListener (S n)
        :: releaseHandlersFrom (S (S n)) rest
  end.

(** What holds of every state a group can reach. *)
Definition sound (w : World) : Prop :=
  wellFormed w /\ flagHasStores w /\ listenersOfGroup w /\ setOfGroup w /\
  snapshotsSound w /\ flagTellsHistory w.

(** * Lists: [indexOf], [addStore] and first occurrences *)

Lemma indexOf_ge (array : list Store) (x : Store) : (-1 <= indexOf array x)%Z.
Proof.
  induction array as [|y rest IH]; cbn; [lia|].
  destruct (Nat.eqb y x); [lia|].
  destruct (indexOf rest x =? -1)%Z; lia.
Qed.

Lemma indexOf_absent (array : list Store) (x : Store) :
  indexOf array x = (-1)%Z <-> x ∉ array.
Proof.
  induction array as [|y rest IH]; cbn.
  - split; [intros _; apply not_elem_of_nil | done].
  - rewrite not_elem_of_cons. destruct (Nat.eqb_spec y x) as [->|Hne].
    + split; [lia | intros [? _]; done].
    + pose proof (indexOf_ge rest x).
      destruct (Z.eqb_spec (indexOf rest x) (-1)) as [He|He].
      * split; [intros _; split; [congruence | by apply IH] | done].
      * split; [lia | intros [_ ?]; exfalso; apply He; by apply IH].
  Qed.

Lemma addStore_present (store : Store) (array : list Store) :
  store ∈ array -> addStore store array = array.
Proof.
  intros Hin. unfold addStore.
  destruct (Z.eqb_spec (indexOf array store) (-1)) as [He|He]; [|done].
  apply indexOf_absent in He. done.
Qed.

Lemma addStore_absent (store : Store) (array : list Store) :
  store ∉ array -> addStore store array = array ++ [store].
Proof.
  intros Hin. unfold addStore.
  destruct (Z.eqb_spec (indexOf array store) (-1)) as [He|He]; [done|].
  exfalso. apply He. by apply indexOf_absent.
Qed.

Lemma addStore_nonempty (store : Store) (array : list Store) :
  addStore store array <> [].
Proof.
  unfold addStore. destruct (indexOf array store =? -1)%Z eqn:E.
  - by destruct array.
  - intros ->. cbn in E. done.
Qed.

Lemma addStore_idempotent (store : Store) (array : list Store) :
  addStore store (addStore store array) = addStore store array.
Proof.
  apply addStore_present. unfold addStore.
  destruct (Z.eqb_spec (indexOf array store) (-1)) as [He|He].
  - apply elem_of_app. right. apply list_elem_of_singleton. done.
  - destruct (decide (store ∈ array)) as [|Hn]; [done|].
    exfalso. apply He. by apply indexOf_absent.
Qed.

Lemma firstChanges_elem (changes : list Store) (s : Store) :
  s ∈ firstChanges changes <-> s ∈ changes.
Proof.
  induction changes as [|c rest IH]; cbn; [done|].
  rewrite !elem_of_cons, list_elem_of_filter, IH.
  destruct (decide (s = c)); naive_solver.
Qed.

Lemma firstChanges_NoDup (changes : list Store) : NoDup (firstChanges changes).
Proof.
  induction changes as [|c rest IH]; cbn; [constructor|].
  constructor.
  - rewrite list_elem_of_filter. naive_solver.
  - by apply NoDup_filter.
Qed.

Lemma indexOf_filter_absent (P : Store -> Prop) `{!forall x, Decision (P x)}
    (array : list Store) (x : Store) :
  P x -> indexOf (filter P array) x = (-1)%Z <-> indexOf array x = (-1)%Z.
Proof.
  intros Hx. rewrite !indexOf_absent, list_elem_of_filter. naive_solver.
Qed.

(** Dropping other elements keeps the relative position of two kept ones. *)
Lemma indexOf_filter_order (P : Store -> Prop) `{!forall x, Decision (P x)}
    (array : list Store) (a b : Store) :
  P a -> P b ->
  (indexOf (filter P array) a < indexOf (filter P array) b)%Z
  <-> (indexOf array a < indexOf array b)%Z.
Proof.
  intros Ha Hb. induction array as [|y rest IH]; [done|].
  pose proof (indexOf_ge rest a). pose proof (indexOf_ge rest b).
  pose proof (indexOf_ge (filter P rest) a).
  pose proof (indexOf_ge (filter P rest) b).
  pose proof (indexOf_filter_absent P rest a Ha).
  pose proof (indexOf_filter_absent P rest b Hb).
  destruct (decide (P y)) as [Hy|Hy].
  - rewrite filter_cons_True by done. cbn [indexOf].
    destruct (Nat.eqb y a), (Nat.eqb y b); try lia;
      repeat match goal with |- context [(?i =? -1)%Z] =>
        destruct (Z.eqb_spec i (-1)) end; lia.
  - rewrite filter_cons_False by done. cbn [indexOf].
    destruct (Nat.eqb_spec y a) as [->|_]; [done|].
    destruct (Nat.eqb_spec y b) as [->|_]; [done|].
    repeat match goal with |- context [(?i =? -1)%Z] =>
      destruct (Z.eqb_spec i (-1)) end; lia.
Qed.

(** [firstChanges] orders the stores by their first occurrence. *)
Lemma firstChanges_order (changes : list Store) (a b : Store) :
  (indexOf (firstChanges changes) a < indexOf (firstChanges changes) b)%Z
  <-> (indexOf changes a < indexOf changes b)%Z.
Proof.
  induction changes as [|c rest IH]; [done|].
  set (keep := fun x : Store => x <> c).
  pose proof (indexOf_ge rest a). pose proof (indexOf_ge rest b).
  pose proof (indexOf_ge (firstChanges rest) a).
  pose proof (indexOf_ge (firstChanges rest) b).
  pose proof (indexOf_ge (filter keep (firstChanges rest)) a).
  pose proof (indexOf_ge (filter keep (firstChanges rest)) b).
  assert (Hab : forall x, indexOf (firstChanges rest) x = (-1)%Z
                          <-> indexOf rest x = (-1)%Z).
  { intros x. rewrite !indexOf_absent, firstChanges_elem. done. }
  pose proof (Hab a). pose proof (Hab b).
  cbn [firstChanges indexOf]. fold keep.
  destruct (Nat.eqb_spec c a) as [Hca|Hca], (Nat.eqb_spec c b) as [Hcb|Hcb].
  - lia.
  - pose proof (indexOf_filter_absent keep (firstChanges rest) b) as Hfb.
    assert (keep b) as Hk by (unfold keep; congruence). specialize (Hfb Hk).
    repeat match goal with |- context [(?i =? -1)%Z] =>
      destruct (Z.eqb_spec i (-1)) end; lia.
  - pose proof (indexOf_filter_absent keep (firstChanges rest) a) as Hfa.
    assert (keep a) as Hk by (unfold keep; congruence). specialize (Hfa Hk).
    repeat match goal with |- context [(?i =? -1)%Z] =>
      destruct (Z.eqb_spec i (-1)) end; lia.
  - assert (keep a) as Ha by (unfold keep; congruence).
    assert (keep b) as Hb by (unfold keep; congruence).
    pose proof (indexOf_filter_order keep (firstChanges rest) a b Ha Hb).
    pose proof (indexOf_filter_absent keep (firstChanges rest) a Ha).
    pose proof (indexOf_filter_absent keep (firstChanges rest) b Hb).
    repeat match goal with |- context [(?i =? -1)%Z] =>
      destruct (Z.eqb_spec i (-1)) end; lia.
Qed.

Lemma fold_addStore (changes : list Store) (array : list Store) :
  fold_left (fun acc s => addStore s acc) changes array
  = array ++ filter (fun x => x ∉ array) (firstChanges changes).
Proof.
  revert array.
  induction changes as [|c rest IH]; intros array; cbn [fold_left firstChanges].
  - by rewrite app_nil_r.
  - rewrite IH. destruct (decide (c ∈ array)) as [Hin|Hin].
    + rewrite addStore_present by done.
      rewrite filter_cons_False by (intros Hn; done).
      f_equal. rewrite list_filter_filter. apply list_filter_iff.
      intros x. destruct (decide (x = c)); naive_solver.
    + rewrite addStore_absent by done.
      rewrite filter_cons_True by done.
      rewrite <- app_assoc. cbn. do 2 f_equal.
      rewrite list_filter_filter. apply list_filter_iff.
      intros x. rewrite not_elem_of_app, list_elem_of_singleton.
      destruct (decide (x = c)); naive_solver.
Qed.

Lemma fold_addStore_singleton (c : Store) (rest : list Store) :
  fold_left (fun acc s => addStore s acc) rest [c] = firstChanges (c :: rest).
Proof.
  rewrite fold_addStore. cbn [firstChanges app].
  f_equal. apply list_filter_iff.
  intros x. rewrite list_elem_of_singleton. done.
Qed.

(** * Arrays in the heap *)

Lemma readArray_insert_eq (h : list (list Store)) (a : loc) (v : list Store) :
  a < length h -> readArray (<[a:=v]> h) a = v.
Proof. intros Hlt. unfold readArray. by rewrite list_lookup_insert_eq. Qed.

Lemma readArray_app_l (h h' : list (list Store)) (a : loc) :
  a < length h -> readArray (h ++ h') a = readArray h a.
Proof. intros Hlt. unfold readArray. by rewrite lookup_app_l. Qed.

Lemma readArray_app_new (h : list (list Store)) (v : list Store) :
  readArray (h ++ [v]) (length h) = v.
Proof. unfold readArray. by rewrite list_lookup_middle. Qed.

Lemma insert_readArray (h : list (list Store)) (a : loc) :
  <[a:=readArray h a]> h = h.
Proof.
  unfold readArray. destruct (h !! a) as [v|] eqn:E; cbn.
  - by apply list_insert_id.
  - apply list_insert_ge. by apply lookup_ge_None.
Qed.

(** * The methods, in closed form *)

Ltac simpl_world :=
  cbn [_releaseHandlers _currentChangingStores stores _isAnyOneStoreChanged
       asap heap storeListeners dispatchListeners changeListeners
       nextFunctionRef emitted delivered invoked fst snd negb
       set_releaseHandlers set_isAnyOneStoreChanged set_heap
       set_storeListeners set_dispatchListeners set_changeListeners
       set_nextFunctionRef set_emitted set_delivered set_invoked] in *.

Ltac unfold_methods :=
  unfold onStoreChange, emitChange, tryToEmitChange, onChange,
    callReleaseHandler, _registerStore in *;
  unfold hasChangingStore, _pruneCurrentChangingStores, push, slice, emit in *;
  unfold currentChangingStores in *;
  simpl_world;
  unfold set_releaseHandlers, set_isAnyOneStoreChanged, set_heap,
    set_storeListeners, set_dispatchListeners, set_changeListeners,
    set_nextFunctionRef, set_emitted, set_delivered, set_invoked in *;
  simpl_world.

(** One run of the change closure: the flag is raised and the set, emptied
    first when the flag was down, receives the store unless it holds it. *)
Lemma onStoreChange_closed (store : Store) (w : World) :
  wellFormed w ->
  onStoreChange store w
  = set_heap
      (<[_currentChangingStores w :=
           addStore store
             (if truthy (_isAnyOneStoreChanged w) then currentChangingStores w
              else [])]> (heap w))
      (set_isAnyOneStoreChanged (Some true) w).
Proof.
  unfold wellFormed. destruct w as [rh ics ss flag asp hp sl dl cl nf em de inv].
  unfold_methods. intros Hwf. unfold addStore.
  destruct (truthy flag); simpl_world.
  - destruct (indexOf (readArray hp ics) store =? -1)%Z; simpl_world; [done|].
    by rewrite insert_readArray.
  - rewrite readArray_insert_eq by done.
    destruct (indexOf [] store =? -1)%Z eqn:E; simpl_world.
    + by rewrite list_insert_insert_eq.
    + cbn in E. done.
Qed.

Lemma emitChange_idle (w : World) :
  truthy (_isAnyOneStoreChanged w) = false -> emitChange w = w.
Proof. intros H. unfold emitChange. by rewrite H. Qed.

Lemma emitChange_closed (w : World) :
  truthy (_isAnyOneStoreChanged w) = true ->
  emitChange w
  = set_isAnyOneStoreChanged (Some false)
      (set_delivered
         (delivered w ++ map (fun h => (h, length (heap w))) (changeListeners w))
         (set_emitted (emitted w ++ [length (heap w)])
            (set_heap (heap w ++ [currentChangingStores w]) w))).
Proof. intros H. unfold emitChange. rewrite H. reflexivity. Qed.

(** Under the flag/set invariant the test on the set's length in the
    dispatch closure changes nothing: the guarded call is the call. *)
Lemma guarded_emitChange (w : World) :
  flagHasStores w ->
  (if hasChangingStore w then emitChange w else w) = emitChange w.
Proof.
  intros Hinv. unfold hasChangingStore.
  destruct (currentChangingStores w) as [|x l] eqn:E; cbn; [|done].
  symmetry. apply emitChange_idle.
  destruct (truthy (_isAnyOneStoreChanged w)) eqn:Ht; [|done].
  exfalso. by apply Hinv.
Qed.

(** * Frames: what each method leaves alone *)

Lemma sameWiring_refl (w : World) : sameWiring w w.
Proof. by repeat split. Qed.

Lemma sameWiring_trans (w1 w2 w3 : World) :
  sameWiring w1 w2 -> sameWiring w2 w3 -> sameWiring w1 w3.
Proof. unfold sameWiring. intros H1 H2. repeat split; naive_solver congruence. Qed.

Lemma sameChangeSet_refl (w : World) : sameChangeSet w w.
Proof. by repeat split. Qed.

Lemma sameChangeSet_trans (w1 w2 w3 : World) :
  sameChangeSet w1 w2 -> sameChangeSet w2 w3 -> sameChangeSet w1 w3.
Proof. unfold sameChangeSet. intros H1 H2. repeat split; naive_solver congruence. Qed.

Lemma onStoreChange_sameWiring (store : Store) (w : World) :
  sameWiring w (onStoreChange store w).
Proof.
  destruct w. unfold_methods. unfold sameWiring.
  repeat match goal with |- context [if ?b then _ else _] => destruct b end;
    cbn; by repeat split.
Qed.

Lemma emitChange_sameWiring (w : World) : sameWiring w (emitChange w).
Proof.
  destruct w. unfold_methods. unfold sameWiring.
  repeat match goal with |- context [if ?b then _ else _] => destruct b end;
    cbn; by repeat split.
Qed.

Lemma tryToEmitChange_cases (payload : Payload) (meta : DispatcherPayloadMeta)
    (w : World) :
  tryToEmitChange payload meta w = w \/
  tryToEmitChange payload meta w = emitChange w.
Proof.
  unfold tryToEmitChange.
  repeat match goal with |- context [if ?b then _ else _] => destruct b end;
    auto.
Qed.

Lemma tryToEmitChange_sameWiring (payload : Payload)
    (meta : DispatcherPayloadMeta) (w : World) :
  sameWiring w (tryToEmitChange payload meta w).
Proof.
  destruct (tryToEmitChange_cases payload meta w) as [-> | ->].
  - apply sameWiring_refl.
  - apply emitChange_sameWiring.
Qed.

Lemma fold_left_related {A} (R : World -> World -> Prop)
    (f : World -> A -> World) (l : list A) (w : World) :
  (forall x, R x x) ->
  (forall x y z, R x y -> R y z -> R x z) ->
  (forall x a, R x (f x a)) ->
  R w (fold_left f l w).
Proof.
  intros Hrefl Htrans Hstep. revert w.
  induction l as [|a l IH]; intros w; cbn; [apply Hrefl|].
  eapply Htrans; [apply Hstep | apply IH].
Qed.

Lemma fold_left_invariant {A} (P : World -> Prop)
    (f : World -> A -> World) (l : list A) (w : World) :
  (forall x a, P x -> P (f x a)) -> P w -> P (fold_left f l w).
Proof.
  intros Hstep. revert w.
  induction l as [|a l IH]; intros w Hw; cbn; [done|].
  apply IH. by apply Hstep.
Qed.

Lemma storeEmitChange_sameWiring (store : Store) (w : World) :
  sameWiring w (storeEmitChange store w).
Proof.
  unfold storeEmitChange. apply fold_left_related.
  - apply sameWiring_refl.
  - apply sameWiring_trans.
  - intros x l. destruct (Nat.eqb (fst l) store).
    + apply onStoreChange_sameWiring.
    + apply sameWiring_refl.
Qed.

Lemma dispatch_sameWiring (payload : Payload) (meta : DispatcherPayloadMeta)
    (w : World) :
  sameWiring w (dispatch payload meta w).
Proof.
  unfold dispatch. apply fold_left_related.
  - apply sameWiring_refl.
  - apply sameWiring_trans.
  - intros x [fn s|fn].
    + apply sameWiring_refl.
    + apply tryToEmitChange_sameWiring.
Qed.

Lemma onChange_sameChangeSet (handler : Handler) (w : World) :
  sameChangeSet w (snd (onChange handler w)).
Proof. destruct w. by repeat split. Qed.

Lemma callReleaseHandler_sameChangeSet (h : ReleaseHandler) (w : World) :
  sameChangeSet w (callReleaseHandler h w).
Proof. destruct w, h; by repeat split. Qed.

Lemma release_sameChangeSet (w : World) : sameChangeSet w (release w).
Proof.
  unfold release.
  apply sameChangeSet_trans with
    (fold_left (fun acc h => callReleaseHandler h acc) (_releaseHandlers w) w).
  - apply fold_left_related.
    + apply sameChangeSet_refl.
    + apply sameChangeSet_trans.
    + intros x h. apply callReleaseHandler_sameChangeSet.
  - by repeat split.
Qed.

(** * Other arrays are never written *)

Lemma keepsOtherArrays_refl (w : World) : keepsOtherArrays w w.
Proof. by repeat split. Qed.

Lemma keepsOtherArrays_trans (w1 w2 w3 : World) :
  keepsOtherArrays w1 w2 -> keepsOtherArrays w2 w3 -> keepsOtherArrays w1 w3.
Proof.
  intros (Ha & Hl & Hk) (Ha' & Hl' & Hk'). repeat split.
  - congruence.
  - lia.
  - intros a Hlt Hne. rewrite Hk', Hk; [done..|lia|congruence].
Qed.

Lemma sameChangeSet_keepsOtherArrays (w w' : World) :
  sameChangeSet w w' -> keepsOtherArrays w w'.
Proof.
  intros (Ha & _ & Hh & _). unfold keepsOtherArrays.
  rewrite Ha, Hh. by repeat split.
Qed.

Lemma onStoreChange_keepsOtherArrays (store : Store) (w : World) :
  keepsOtherArrays w (onStoreChange store w).
Proof.
  destruct w as [rh ics ss flag asp hp sl dl cl nf em de inv].
  unfold keepsOtherArrays. unfold_methods.
  repeat match goal with |- context [if ?b then _ else _] => destruct b end;
    simpl_world; repeat split;
    rewrite ?length_insert; try lia;
    intros a Hlt Hne; by rewrite ?list_lookup_insert_ne.
Qed.

Lemma emitChange_keepsOtherArrays (w : World) : keepsOtherArrays w (emitChange w).
Proof.
  destruct (truthy (_isAnyOneStoreChanged w)) eqn:Ht.
  - rewrite emitChange_closed by done. destruct w. unfold keepsOtherArrays.
    unfold_methods. repeat split.
    + rewrite length_app. lia.
    + intros a Hlt _. by rewrite lookup_app_l.
  - rewrite emitChange_idle by done. apply keepsOtherArrays_refl.
Qed.

Lemma tryToEmitChange_keepsOtherArrays (payload : Payload)
    (meta : DispatcherPayloadMeta) (w : World) :
  keepsOtherArrays w (tryToEmitChange payload meta w).
Proof.
  destruct (tryToEmitChange_cases payload meta w) as [-> | ->].
  - apply keepsOtherArrays_refl.
  - apply emitChange_keepsOtherArrays.
Qed.

Lemma step_keepsOtherArrays (w : World) (op : Op) : keepsOtherArrays w (step w op).
Proof.
  destruct op as [store|payload meta| |handler|handler|]; cbn [step].
  - unfold storeEmitChange. apply fold_left_related.
    + apply keepsOtherArrays_refl.
    + apply keepsOtherArrays_trans.
    + intros x l. destruct (Nat.eqb (fst l) store).
      * apply onStoreChange_keepsOtherArrays.
      * apply keepsOtherArrays_refl.
  - unfold dispatch. apply fold_left_related.
    + apply keepsOtherArrays_refl.
    + apply keepsOtherArrays_trans.
    + intros x [fn s|fn].
      * apply keepsOtherArrays_refl.
      * apply tryToEmitChange_keepsOtherArrays.
  - apply emitChange_keepsOtherArrays.
  - apply sameChangeSet_keepsOtherArrays, onChange_sameChangeSet.
  - apply sameChangeSet_keepsOtherArrays, callReleaseHandler_sameChangeSet.
  - apply sameChangeSet_keepsOtherArrays, release_sameChangeSet.
Qed.

Lemma run_keepsOtherArrays (ops : list Op) (w : World) :
  keepsOtherArrays w (run ops w).
Proof.
  unfold run. apply fold_left_related.
  - apply keepsOtherArrays_refl.
  - apply keepsOtherArrays_trans.
  - apply step_keepsOtherArrays.
Qed.

Lemma keepsOtherArrays_wellFormed (w w' : World) :
  keepsOtherArrays w w' -> wellFormed w -> wellFormed w'.
Proof. unfold wellFormed. intros (Ha & Hl & _) Hwf. rewrite Ha. lia. Qed.

(** * The flag and the set *)

Lemma sameChangeSet_flagHasStores (w w' : World) :
  sameChangeSet w w' -> flagHasStores w -> flagHasStores w'.
Proof.
  intros (Ha & Hf & Hh & _). unfold flagHasStores, currentChangingStores.
  by rewrite Ha, Hf, Hh.
Qed.

Lemma onStoreChange_currentChangingStores (store : Store) (w : World) :
  wellFormed w ->
  currentChangingStores (onStoreChange store w)
  = addStore store
      (if truthy (_isAnyOneStoreChanged w) then currentChangingStores w else []).
Proof.
  intros Hwf. rewrite onStoreChange_closed by done.
  unfold currentChangingStores at 1. unfold_methods.
  by rewrite readArray_insert_eq.
Qed.

Lemma onStoreChange_flag (store : Store) (w : World) :
  _isAnyOneStoreChanged (onStoreChange store w) = Some true.
Proof.
  destruct w. unfold_methods.
  repeat match goal with |- context [if ?b then _ else _] => destruct b end;
    reflexivity.
Qed.

Lemma onStoreChange_flagHasStores (store : Store) (w : World) :
  wellFormed w -> flagHasStores (onStoreChange store w).
Proof.
  intros Hwf _. rewrite onStoreChange_currentChangingStores by done.
  apply addStore_nonempty.
Qed.

Lemma emitChange_flag (w : World) :
  truthy (_isAnyOneStoreChanged (emitChange w)) = false.
Proof.
  destruct (truthy (_isAnyOneStoreChanged w)) eqn:Ht.
  - by rewrite emitChange_closed.
  - by rewrite emitChange_idle.
Qed.

Lemma emitChange_currentChangingStores (w : World) :
  wellFormed w ->
  currentChangingStores (emitChange w) = currentChangingStores w.
Proof.
  intros Hwf. destruct (truthy (_isAnyOneStoreChanged w)) eqn:Ht.
  - rewrite emitChange_closed by done. unfold currentChangingStores.
    unfold_methods. by rewrite readArray_app_l.
  - by rewrite emitChange_idle.
Qed.

Lemma emitChange_flagHasStores (w : World) : flagHasStores (emitChange w).
Proof. intros Ht. by rewrite emitChange_flag in Ht. Qed.

Lemma tryToEmitChange_flagHasStores (payload : Payload)
    (meta : DispatcherPayloadMeta) (w : World) :
  flagHasStores w -> flagHasStores (tryToEmitChange payload meta w).
Proof.
  intros Hinv. destruct (tryToEmitChange_cases payload meta w) as [-> | ->].
  - done.
  - apply emitChange_flagHasStores.
Qed.

(** Every operation keeps the internal array in place and the flag/set
    invariant true. *)
Lemma step_invariant (w : World) (op : Op) :
  wellFormed w /\ flagHasStores w ->
  wellFormed (step w op) /\ flagHasStores (step w op).
Proof.
  intros [Hwf Hinv]. split.
  { eapply keepsOtherArrays_wellFormed; [apply step_keepsOtherArrays | done]. }
  destruct op as [store|payload meta| |handler|handler|]; cbn [step].
  - unfold storeEmitChange.
    apply (fold_left_invariant (fun x => wellFormed x /\ flagHasStores x));
      [|done].
    intros x l [Hx Hx']. destruct (Nat.eqb (fst l) store); [|done]. split.
    + eapply keepsOtherArrays_wellFormed;
        [apply onStoreChange_keepsOtherArrays | done].
    + by apply onStoreChange_flagHasStores.
  - unfold dispatch. apply fold_left_invariant; [|done].
    intros x [fn s|fn] Hx; [done|]. by apply tryToEmitChange_flagHasStores.
  - apply emitChange_flagHasStores.
  - eapply sameChangeSet_flagHasStores; [apply onChange_sameChangeSet | done].
  - eapply sameChangeSet_flagHasStores;
      [apply callReleaseHandler_sameChangeSet | done].
  - eapply sameChangeSet_flagHasStores; [apply release_sameChangeSet | done].
Qed.

Lemma run_invariant (ops : list Op) (w : World) :
  wellFormed w /\ flagHasStores w ->
  wellFormed (run ops w) /\ flagHasStores (run ops w).
Proof.
  unfold run.
  apply (fold_left_invariant (fun x => wellFormed x /\ flagHasStores x)).
  intros x op. apply step_invariant.
Qed.

Lemma registerStore_sameChangeSet (store : Store) (w : World) :
  sameChangeSet w (_registerStore store w).
Proof. destruct w. by repeat split. Qed.

Lemma constructor_changeSet (validateStores : list Store -> bool)
    (stores0 : list Store) (options_asap : option bool) (w0 : World) :
  constructor validateStores stores0 options_asap = Some w0 ->
  _currentChangingStores w0 = 0 /\ _isAnyOneStoreChanged w0 = None /\
  heap w0 = [[]] /\ emitted w0 = [] /\ delivered w0 = [].
Proof.
  unfold constructor. destruct (validateStores stores0); [|done].
  intros [= <-].
  match goal with |- context [fold_left ?f ?l ?w] =>
    assert (sameChangeSet w (fold_left f l w)) as (H1 & H2 & H3 & H4 & H5)
  end.
  { apply fold_left_related.
    - apply sameChangeSet_refl.
    - apply sameChangeSet_trans.
    - intros x s. apply registerStore_sameChangeSet. }
  unfold set_releaseHandlers, set_nextFunctionRef, set_dispatchListeners.
  simpl_world. by rewrite H1, H2, H3, H4, H5.
Qed.

Lemma constructor_invariant (validateStores : list Store -> bool)
    (stores0 : list Store) (options_asap : option bool) (w0 : World) :
  constructor validateStores stores0 options_asap = Some w0 ->
  wellFormed w0 /\ flagHasStores w0.
Proof.
  intros H. apply constructor_changeSet in H as (Ha & Hf & Hh & _).
  unfold wellFormed, flagHasStores. rewrite Ha, Hf, Hh. cbn. split; [lia|done].
Qed.

Lemma reachable_invariant (w : World) :
  reachable w -> wellFormed w /\ flagHasStores w.
Proof.
  intros (v & ss & o & w0 & ops & Hc & ->).
  apply run_invariant. by eapply constructor_invariant.
Qed.

(** * Listeners and their release handlers *)

Lemma existsb_absent {A} (same : A -> bool) (ref : A -> FunctionRef)
    (fn : FunctionRef) (l : list A) :
  (forall x, same x = true -> ref x = fn) ->
  fn ∉ map ref l -> existsb same l = false.
Proof.
  intros Hsame. induction l as [|y l IH]; cbn; [done|].
  rewrite not_elem_of_cons. intros [Hne Hnin].
  rewrite IH by done. destruct (same y) eqn:E; [|done].
  exfalso. apply Hne. symmetry. by apply Hsame.
Qed.

Lemma removeListener_head {A} (same : A -> bool) (x : A) (rest : list A) :
  same x = true -> existsb same rest = false ->
  removeListener same (x :: rest) = rest.
Proof. intros Hx Hrest. cbn. by rewrite Hx, Hrest. Qed.

Lemma sameWiring_listenersRecorded (w w' : World) :
  sameWiring w w' -> listenersRecorded w -> listenersRecorded w'.
Proof.
  intros (Hr & _ & _ & _ & Hs & Hd & _ & Hn & _). unfold listenersRecorded.
  by rewrite Hr, Hs, Hd, Hn.
Qed.

Lemma sameWiring_unplugged (w w' : World) :
  sameWiring w w' -> unplugged w -> unplugged w'.
Proof.
  intros (_ & _ & _ & _ & Hs & Hd & _). unfold unplugged. by rewrite Hs, Hd.
Qed.

Lemma registerStore_listenersRecorded (store : Store) (w : World) :
  listenersRecorded w -> listenersRecorded (_registerStore store w).
Proof.
  destruct w as [rh ics ss flag asp hp sl dl cl nf em de inv].
  unfold listenersRecorded. unfold_methods.
  intros (Hs & Hd & Hns & Hnd & Hfs & Hfd).
  rewrite !omap_app, !map_app. cbn [omap list_omap removedStoreListener
    removedDispatchListener map dispatchListenerRef snd app].
  rewrite <- Hs, <- Hd. repeat split; try done.
  - apply NoDup_app. repeat split; [done| |apply NoDup_singleton].
    intros x Hx ->%list_elem_of_singleton.
    rewrite Forall_forall in Hfs. apply Hfs in Hx. lia.
  - apply NoDup_app. repeat split; [done| |apply NoDup_singleton].
    intros x Hx ->%list_elem_of_singleton.
    rewrite Forall_forall in Hfd. apply Hfd in Hx. lia.
  - apply Forall_app. split.
    + eapply Forall_impl; [done|]. cbn. intros; lia.
    + apply Forall_singleton. lia.
  - apply Forall_app. split.
    + eapply Forall_impl; [done|]. cbn. intros; lia.
    + apply Forall_singleton. lia.
Qed.

Lemma constructor_listenersRecorded (validateStores : list Store -> bool)
    (stores0 : list Store) (options_asap : option bool) (w0 : World) :
  constructor validateStores stores0 options_asap = Some w0 ->
  listenersRecorded w0.
Proof.
  unfold constructor. destruct (validateStores stores0); [|done].
  intros [= <-].
  match goal with |- context [fold_left ?f ?l ?w] =>
    assert (listenersRecorded (fold_left f l w)) as Hrec
  end.
  { apply fold_left_invariant.
    - intros x s. apply registerStore_listenersRecorded.
    - unfold listenersRecorded. cbn. repeat split; constructor. }
  match goal with H : listenersRecorded ?x |- _ => destruct x end.
  unfold listenersRecorded in *. unfold_methods.
  destruct Hrec as (Hs & Hd & Hns & Hnd & Hfs & Hfd).
  rewrite !omap_app, !map_app. cbn [omap list_omap removedStoreListener
    removedDispatchListener map dispatchListenerRef snd app].
  rewrite <- Hs, <- Hd, app_nil_r. repeat split; try done.
  - apply NoDup_app. repeat split; [done| |apply NoDup_singleton].
    intros x Hx ->%list_elem_of_singleton.
    rewrite Forall_forall in Hfd. apply Hfd in Hx. lia.
  - eapply Forall_impl; [done|]. cbn. intros; lia.
  - apply Forall_app. split.
    + eapply Forall_impl; [done|]. cbn. intros; lia.
    + apply Forall_singleton. lia.
Qed.

Lemma onChange_listenersRecorded (handler : Handler) (w : World) :
  listenersRecorded w -> listenersRecorded (snd (onChange handler w)).
Proof.
  destruct w as [rh ics ss flag asp hp sl dl cl nf em de inv].
  unfold listenersRecorded. unfold_methods.
  rewrite !omap_app. cbn [omap list_omap removedStoreListener
    removedDispatchListener]. by rewrite !app_nil_r.
Qed.

Lemma callReturned_listenersRecorded (handler : Handler) (w : World) :
  listenersRecorded w ->
  listenersRecorded (callReleaseHandler (RemoveChangeStoreGroupListener handler) w).
Proof. destruct w. unfold listenersRecorded. by unfold_methods. Qed.

(** Calling the recorded handlers in order takes every listener off. *)
Lemma callReleaseHandlers_unplug (hs : list ReleaseHandler) (w : World) :
  storeListeners w = omap removedStoreListener hs ->
  map dispatchListenerRef (dispatchListeners w)
    = omap removedDispatchListener hs ->
  NoDup (map snd (storeListeners w)) ->
  NoDup (map dispatchListenerRef (dispatchListeners w)) ->
  unplugged (fold_left (fun acc h => callReleaseHandler h acc) hs w).
Proof.
  revert w. induction hs as [|h hs IH]; intros w Hs Hd Hns Hnd.
  - cbn in *. split; [done|]. by destruct (dispatchListeners w).
  - cbn [fold_left]. destruct w as [rh ics ss flag asp hp sl dl cl nf em de inv].
    destruct h as [store fn|fn|handler];
      cbn [omap list_omap removedStoreListener removedDispatchListener] in Hs, Hd;
      unfold_methods.
    + subst sl. cbn [map snd] in Hns. apply NoDup_cons in Hns as [Hnin Hns].
      rewrite removeListener_head.
      * by apply IH.
      * cbn. by rewrite !Nat.eqb_refl.
      * apply existsb_absent with (ref := snd) (fn := fn); [|done].
        intros x [_ Hx%Nat.eqb_eq]%andb_true_iff. done.
    + destruct dl as [|d dl]; [done|]. cbn [map] in Hd, Hnd.
      injection Hd as Hd1 Hd2. apply NoDup_cons in Hnd as [Hnin Hnd].
      rewrite removeListener_head.
      * by apply IH.
      * by apply Nat.eqb_eq.
      * apply existsb_absent with (ref := dispatchListenerRef) (fn := fn).
        -- intros x Hx%Nat.eqb_eq. done.
        -- by rewrite <- Hd1.
    + by apply IH.
Qed.

Lemma callReleaseHandlers_releaseHandlers (hs : list ReleaseHandler) (w : World) :
  _releaseHandlers (fold_left (fun acc h => callReleaseHandler h acc) hs w)
  = _releaseHandlers w.
Proof.
  revert w. induction hs as [|h hs IH]; intros w; cbn [fold_left]; [done|].
  rewrite IH. by destruct w, h.
Qed.

Lemma callReleaseHandlers_invoked (hs : list ReleaseHandler) (w : World) :
  invoked (fold_left (fun acc h => callReleaseHandler h acc) hs w)
  = invoked w ++ hs.
Proof.
  revert w. induction hs as [|h hs IH]; intros w; cbn [fold_left].
  - by rewrite app_nil_r.
  - rewrite IH. destruct w, h; unfold_methods; by rewrite <- app_assoc.
Qed.

Lemma release_releaseHandlers (w : World) : _releaseHandlers (release w) = [].
Proof. reflexivity. Qed.

Lemma release_invoked (w : World) :
  invoked (release w) = invoked w ++ _releaseHandlers w.
Proof. unfold release. unfold_methods. apply callReleaseHandlers_invoked. Qed.

Lemma release_unplugs (w : World) : listenersRecorded w -> unplugged (release w).
Proof.
  intros (Hs & Hd & Hns & Hnd & _). unfold release, unplugged. unfold_methods.
  by apply callReleaseHandlers_unplug.
Qed.

Lemma unplugged_listenersRecorded (w : World) :
  unplugged w -> _releaseHandlers w = [] -> listenersRecorded w.
Proof.
  intros [Hs Hd] Hr. unfold listenersRecorded. rewrite Hs, Hd, Hr. cbn.
  repeat split; constructor.
Qed.

Lemma step_listenersRecorded (w : World) (op : Op) :
  listenersRecorded w -> listenersRecorded (step w op).
Proof.
  intros Hrec. destruct op as [store|payload meta| |handler|handler|]; cbn [step].
  - eapply sameWiring_listenersRecorded; [apply storeEmitChange_sameWiring|done].
  - eapply sameWiring_listenersRecorded; [apply dispatch_sameWiring|done].
  - eapply sameWiring_listenersRecorded; [apply emitChange_sameWiring|done].
  - by apply onChange_listenersRecorded.
  - by apply callReturned_listenersRecorded.
  - apply unplugged_listenersRecorded; [by apply release_unplugs|done].
Qed.

Lemma reachable_listenersRecorded (w : World) :
  reachable w -> listenersRecorded w.
Proof.
  intros (v & ss & o & w0 & ops & Hc & ->). unfold run.
  apply fold_left_invariant.
  - apply step_listenersRecorded.
  - by eapply constructor_listenersRecorded.
Qed.

Lemma callReleaseHandler_unplugged (h : ReleaseHandler) (w : World) :
  unplugged w -> unplugged (callReleaseHandler h w).
Proof.
  destruct w, h; unfold unplugged; unfold_methods; intros [-> ->]; done.
Qed.

(** Once the listeners are gone nothing brings them back. *)
Lemma step_unplugged (w : World) (op : Op) : unplugged w -> unplugged (step w op).
Proof.
  intros Hun. destruct op as [store|payload meta| |handler|handler|]; cbn [step].
  - eapply sameWiring_unplugged; [apply storeEmitChange_sameWiring|done].
  - eapply sameWiring_unplugged; [apply dispatch_sameWiring|done].
  - eapply sameWiring_unplugged; [apply emitChange_sameWiring|done].
  - destruct w. by unfold unplugged in *.
  - by apply callReleaseHandler_unplugged.
  - unfold release.
    assert (unplugged (fold_left (fun acc h => callReleaseHandler h acc)
                         (_releaseHandlers w) w)) as Hf.
    { apply fold_left_invariant; [|done].
      intros x h. apply callReleaseHandler_unplugged. }
    destruct (fold_left _ _ _). by unfold unplugged in *.
Qed.

Lemma run_unplugged (ops : list Op) (w : World) :
  unplugged w -> unplugged (run ops w).
Proof. unfold run. apply fold_left_invariant. apply step_unplugged. Qed.

(** * Runs of the change closure *)

Lemma onStoreChange_fold_raised (changes : list Store) (w : World) :
  wellFormed w -> _isAnyOneStoreChanged w = Some true ->
  fold_left (fun acc s => onStoreChange s acc) changes w
  = set_heap
      (<[_currentChangingStores w :=
           fold_left (fun acc s => addStore s acc) changes
             (currentChangingStores w)]> (heap w)) w.
Proof.
  revert w. induction changes as [|c rest IH]; intros w Hwf Hflag.
  - cbn [fold_left]. unfold currentChangingStores. rewrite insert_readArray.
    by destruct w.
  - cbn [fold_left]. rewrite onStoreChange_closed by done. rewrite Hflag.
    cbn [truthy]. rewrite IH.
    + destruct w as [rh ics ss flag asp hp sl dl cl nf em de inv].
      unfold wellFormed in Hwf. unfold_methods. subst flag.
      rewrite readArray_insert_eq by done.
      by rewrite list_insert_insert_eq.
    + destruct w. unfold wellFormed in *. unfold_methods.
      by rewrite length_insert.
    + by destruct w.
Qed.

Lemma onStoreChange_fold_lowered (c : Store) (rest : list Store) (w : World) :
  wellFormed w -> truthy (_isAnyOneStoreChanged w) = false ->
  fold_left (fun acc s => onStoreChange s acc) (c :: rest) w
  = set_heap (<[_currentChangingStores w := firstChanges (c :: rest)]> (heap w))
      (set_isAnyOneStoreChanged (Some true) w).
Proof.
  intros Hwf Hflag. cbn [fold_left]. rewrite onStoreChange_closed by done.
  rewrite Hflag. rewrite onStoreChange_fold_raised.
  - destruct w as [rh ics ss flag asp hp sl dl cl nf em de inv].
    unfold wellFormed in Hwf. unfold_methods.
    rewrite readArray_insert_eq by done. rewrite list_insert_insert_eq.
    change (addStore c []) with [c].
    by rewrite fold_addStore_singleton.
  - destruct w. unfold wellFormed in *. unfold_methods.
    by rewrite length_insert.
  - by destruct w.
Qed.

Lemma demo_reachable : reachable demo.
Proof. exists (fun _ => true), [7; 9], None, demo, []. by split. Defined.

Lemma demoChanged_reachable : reachable demoChanged.
Proof.
  exists (fun _ => true), [7; 9], None, demo, [StoreChanges 7]. by split.
Defined.

Lemma reachable_run (ops : list Op) (w : World) :
  reachable w -> reachable (run ops w).
Proof.
  intros (v & ss & o & w0 & ops0 & Hc & ->).
  exists v, ss, o, w0, (ops0 ++ ops). split; [done|].
  unfold run. by rewrite fold_left_app.
Qed.

(** * From host events to the closures

    While the group is plugged, a change announced by one of its stores runs
    the change closure, and an event on the dispatch stream runs the dispatch
    closure; running either twice in a row is running it once. *)

Lemma onStoreChange_idempotent (store : Store) (w : World) :
  wellFormed w ->
  onStoreChange store (onStoreChange store w) = onStoreChange store w.
Proof.
  intros Hwf.
  assert (wellFormed (onStoreChange store w)) as Hwf'.
  { eapply keepsOtherArrays_wellFormed;
      [apply onStoreChange_keepsOtherArrays | done]. }
  rewrite (onStoreChange_closed store (onStoreChange store w)) by done.
  rewrite onStoreChange_currentChangingStores, onStoreChange_flag by done.
  cbn [truthy]. rewrite addStore_idempotent.
  rewrite (onStoreChange_closed store w) by done.
  destruct w as [rh ics ss flag asp hp sl dl cl nf em de inv]. unfold_methods.
  by rewrite list_insert_insert_eq.
Qed.

Lemma storeEmitChange_closure (store : Store) (w : World) :
  wellFormed w ->
  storeEmitChange store w
  = if listensTo store w then onStoreChange store w else w.
Proof.
  intros Hwf. unfold storeEmitChange, listensTo.
  assert (forall (L : list (Store * FunctionRef)) x, wellFormed x ->
            fold_left
              (fun acc l => if Nat.eqb (fst l) store
                            then onStoreChange (fst l) acc else acc)
              L (onStoreChange store x)
            = onStoreChange store x) as Hrun.
  { induction L as [|l L IH]; intros x Hx; cbn [fold_left]; [done|].
    match goal with |- context [Nat.eqb ?a store] =>
      destruct (Nat.eqb_spec a store) as [Heq|_] end; [|by apply IH].
    rewrite Heq, onStoreChange_idempotent by done. by apply IH. }
  induction (storeListeners w) as [|l L IH]; cbn [fold_left existsb]; [done|].
  match goal with |- context [Nat.eqb ?a store] =>
    destruct (Nat.eqb_spec a store) as [Heq|_] end; cbn [orb]; [|done].
  rewrite Heq. by apply Hrun.
Qed.

Lemma tryToEmitChange_idempotent (payload : Payload)
    (meta : DispatcherPayloadMeta) (w : World) :
  tryToEmitChange payload meta (tryToEmitChange payload meta w)
  = tryToEmitChange payload meta w.
Proof.
  destruct (tryToEmitChange_cases payload meta w) as [Hw | Hw];
    rewrite Hw; [done|].
  destruct (tryToEmitChange_cases payload meta (emitChange w)) as [-> | ->];
    [done|].
  apply emitChange_idle, emitChange_flag.
Qed.

Lemma dispatch_closure (payload : Payload) (meta : DispatcherPayloadMeta)
    (w : World) :
  dispatch payload meta w
  = if existsb isTryToEmitChange (dispatchListeners w)
    then tryToEmitChange payload meta w else w.
Proof.
  unfold dispatch.
  assert (forall L x,
            fold_left
              (fun acc l =>
                 match l with
                 | delegatePayload _ _ => acc
                 | tryToEmitChangeListener _ => tryToEmitChange payload meta acc
                 end)
              L (tryToEmitChange payload meta x)
            = tryToEmitChange payload meta x) as Hrun.
  { induction L as [|l L IH]; intros x; cbn [fold_left]; [done|].
    destruct l as [fn s|fn]; [apply IH|].
    rewrite tryToEmitChange_idempotent. apply IH. }
  induction (dispatchListeners w) as [|l L IH]; cbn [fold_left existsb]; [done|].
  destruct l as [fn s|fn]; cbn [isTryToEmitChange orb]; [done|]. apply Hrun.
Qed.

Lemma existsb_app_r {A} (f : A -> bool) (l1 l2 : list A) :
  existsb f l2 = true -> existsb f (l1 ++ l2) = true.
Proof. intros H. rewrite existsb_app, H. apply orb_true_r. Qed.

Lemma existsb_app_l {A} (f : A -> bool) (l1 l2 : list A) :
  existsb f l1 = true -> existsb f (l1 ++ l2) = true.
Proof. intros H. by rewrite existsb_app, H. Qed.

Lemma registerStores_listen (ss : list Store) (w : World) (store : Store) :
  store ∈ ss \/ listensTo store w = true ->
  listensTo store
    (fold_left (fun acc s => _registerStore s acc) ss w) = true.
Proof.
  revert w. induction ss as [|s ss IH]; intros w Hin; cbn [fold_left].
  - destruct Hin as [Hin|Hin]; [by apply not_elem_of_nil in Hin | done].
  - apply IH. destruct Hin as [[->|Hin]%elem_of_cons | Hin].
    + right. destruct w. unfold listensTo. unfold_methods.
      apply existsb_app_r. cbn. by rewrite Nat.eqb_refl.
    + by left.
    + right. destruct w. unfold listensTo in *. unfold_methods.
      by apply existsb_app_l.
Qed.

Lemma registerStores_stores (ss : list Store) (w : World) :
  stores (fold_left (fun acc s => _registerStore s acc) ss w) = stores w.
Proof.
  revert w. induction ss as [|s ss IH]; intros w; cbn [fold_left]; [done|].
  rewrite IH. by destruct w.
Qed.

Lemma constructor_plugged (validateStores : list Store -> bool)
    (stores0 : list Store) (options_asap : option bool) (w0 : World) :
  constructor validateStores stores0 options_asap = Some w0 -> plugged w0.
Proof.
  unfold constructor. destruct (validateStores stores0); [|done].
  intros [= <-].
  match goal with |- context [fold_left ?f ?l ?w] =>
    pose proof (registerStores_stores l w) as Hstores;
    pose proof (registerStores_listen l w) as Hlisten;
    destruct (fold_left f l w)
  end.
  unfold plugged, listensTo in *. unfold_methods. split.
  - by apply existsb_app_r.
  - intros store Hin. apply Hlisten. left. by rewrite <- Hstores.
Qed.

Lemma sameWiring_plugged (w w' : World) :
  sameWiring w w' -> plugged w -> plugged w'.
Proof.
  intros (_ & _ & Hss & _ & Hs & Hd & _).
  unfold plugged, listensTo. by rewrite Hss, Hs, Hd.
Qed.

Lemma step_plugged (w : World) (op : Op) :
  isRelease op = false -> plugged w -> plugged (step w op).
Proof.
  intros Hop Hpl.
  assert (forall w', sameWiring w w' -> plugged w') as Hsame.
  { intros w' Hw'. by eapply sameWiring_plugged. }
  destruct op as [store|payload meta| |handler|handler|]; cbn [step].
  - apply Hsame, storeEmitChange_sameWiring.
  - apply Hsame, dispatch_sameWiring.
  - apply Hsame, emitChange_sameWiring.
  - by destruct w.
  - by destruct w.
  - done.
Qed.

Lemma run_plugged (ops : list Op) (w : World) :
  existsb isRelease ops = false -> plugged w -> plugged (run ops w).
Proof.
  unfold run. revert w.
  induction ops as [|op ops IH]; intros w Hops Hpl; cbn [fold_left]; [done|].
  cbn [existsb] in Hops. apply orb_false_iff in Hops as [Hop Hops].
  apply IH; [done|]. by apply step_plugged.
Qed.

(** A group that has not been released answers host events with its two
    closures. *)
Lemma plugged_events (w : World) :
  wellFormed w -> plugged w ->
  (forall store, store ∈ stores w ->
     storeEmitChange store w = onStoreChange store w) /\
  (forall payload meta, dispatch payload meta w = tryToEmitChange payload meta w).
Proof.
  intros Hwf [Hd Hs]. split.
  - intros store Hin. rewrite storeEmitChange_closure by done.
    by rewrite Hs.
  - intros payload meta. by rewrite dispatch_closure, Hd.
Qed.

(** Changes announced by stores of a plugged group are so many runs of the
    change closure, in the same order. *)
Lemma run_storeChanges (changes : list Store) (w : World) :
  wellFormed w -> plugged w ->
  Forall (fun s => s ∈ stores w) changes ->
  run (map StoreChanges changes) w
  = fold_left (fun acc s => onStoreChange s acc) changes w.
Proof.
  unfold run. revert w.
  induction changes as [|c rest IH]; intros w Hwf Hpl Hall; [done|].
  apply Forall_cons in Hall as [Hc Hrest]. cbn [map fold_left step].
  destruct (plugged_events w Hwf Hpl) as [Hstore _].
  rewrite Hstore by done.
  pose proof (onStoreChange_sameWiring c w) as Hsame.
  apply IH.
  - eapply keepsOtherArrays_wellFormed;
      [apply onStoreChange_keepsOtherArrays | done].
  - by eapply sameWiring_plugged.
  - destruct Hsame as (_ & _ & -> & _). done.
Qed.

(** * The flush and the query after it *)

Lemma emitChange_snapshot (w : World) :
  truthy (_isAnyOneStoreChanged w) = true ->
  emitted (emitChange w) = emitted w ++ [length (heap w)] /\
  delivered (emitChange w)
    = delivered w ++ map (fun h => (h, length (heap w))) (changeListeners w) /\
  readArray (heap (emitChange w)) (length (heap w)) = currentChangingStores w /\
  length (heap (emitChange w)) = S (length (heap w)) /\
  _isAnyOneStoreChanged (emitChange w) = Some false /\
  _currentChangingStores (emitChange w) = _currentChangingStores w.
Proof.
  intros Ht. rewrite emitChange_closed by done. destruct w. unfold_methods.
  rewrite readArray_app_new, length_app. cbn. repeat split; lia.
Qed.

Lemma hasChangingStore_nonempty (w : World) :
  hasChangingStore w = true <-> currentChangingStores w <> [].
Proof. unfold hasChangingStore. by destruct (currentChangingStores w). Qed.

(** C1, as the claim has it, fails: in the group over stores 7 and 9, after
    store 7 changed and [emitChange] delivered its notification, the flag is
    false and [hasChangingStore] still answers true. *)
Lemma hasChangingStore_after_flush_counterexample :
  reachable demoChanged /\
  emitted (emitChange demoChanged) = emitted demoChanged ++ [1] /\
  _isAnyOneStoreChanged (emitChange demoChanged) = Some false /\
  currentChangingStores (emitChange demoChanged) = [7] /\
  hasChangingStore (emitChange demoChanged) <> false.
Proof. split; [apply demoChanged_reachable|]. by repeat split. Qed.

(** C1 (amended): between a flush that emitted and the next store-change
    callback the flag is false while the set still holds the stale stores,
    and [hasChangingStore], which looks at the set's length, answers true;
    it is the flag that turns a further [emitChange], direct or from the
    dispatch closure, into a no-op. *)
Theorem hasChangingStore_reads_stale_set (w : World) :
  reachable w ->
  truthy (_isAnyOneStoreChanged w) = true ->
  _isAnyOneStoreChanged (emitChange w) = Some false /\
  currentChangingStores (emitChange w) = currentChangingStores w /\
  currentChangingStores (emitChange w) <> [] /\
  hasChangingStore (emitChange w) = true /\
  emitChange (emitChange w) = emitChange w /\
  (forall payload meta,
     tryToEmitChange payload meta (emitChange w) = emitChange w).
Proof.
  intros [Hwf Hinv]%reachable_invariant Ht.
  pose proof (emitChange_snapshot w Ht) as (_ & _ & _ & _ & Hflag & _).
  pose proof (emitChange_currentChangingStores w Hwf) as Hset.
  assert (emitChange (emitChange w) = emitChange w) as Hidle.
  { apply emitChange_idle. by rewrite Hflag. }
  repeat split; try done.
  - rewrite Hset. by apply Hinv.
  - apply hasChangingStore_nonempty. rewrite Hset. by apply Hinv.
  - intros payload meta.
    destruct (tryToEmitChange_cases payload meta (emitChange w)) as [-> | ->];
      done.
Qed.

Lemma hasChangingStore_reads_stale_set_witness :
  reachable demoChanged /\
  truthy (_isAnyOneStoreChanged demoChanged) = true /\
  hasChangingStore (emitChange demoChanged) = true.
Proof.
  split; [apply demoChanged_reachable|]. split; [reflexivity|].
  destruct (hasChangingStore_reads_stale_set demoChanged
              demoChanged_reachable eq_refl) as (_ & _ & _ & H & _).
  exact H.
Defined.

(** C2: with the flag down [emitChange] changes nothing and emits nothing;
    with the flag up it emits exactly one notification, whose argument is a
    newly allocated array holding the elements of the set, hands it to every
    subscriber, lowers the flag and leaves the set as it was.  Whatever
    happens to the group afterwards, the delivered array keeps its
    elements. *)
Theorem emitChange_contract (w : World) :
  reachable w ->
  (truthy (_isAnyOneStoreChanged w) = false -> emitChange w = w) /\
  (truthy (_isAnyOneStoreChanged w) = true ->
   let snapshot := length (heap w) in
   emitted (emitChange w) = emitted w ++ [snapshot] /\
   delivered (emitChange w)
     = delivered w ++ map (fun h => (h, snapshot)) (changeListeners w) /\
   heap w !! snapshot = None /\
   snapshot <> _currentChangingStores (emitChange w) /\
   readArray (heap (emitChange w)) snapshot = currentChangingStores w /\
   (forall later,
      readArray (heap (run later (emitChange w))) snapshot
      = currentChangingStores w) /\
   _isAnyOneStoreChanged (emitChange w) = Some false /\
   _currentChangingStores (emitChange w) = _currentChangingStores w /\
   currentChangingStores (emitChange w) = currentChangingStores w).
Proof.
  intros [Hwf Hinv]%reachable_invariant. split; [apply emitChange_idle|].
  intros Ht snapshot.
  pose proof (emitChange_snapshot w Ht) as (He & Hd & Hs & Hl & Hf & Ha).
  unfold wellFormed in Hwf.
  repeat split; try done.
  - by apply lookup_ge_None.
  - rewrite Ha. unfold snapshot. lia.
  - intros later.
    pose proof (run_keepsOtherArrays later (emitChange w)) as (_ & _ & Hk).
    unfold readArray in *. rewrite Hk; [done| |].
    + rewrite Hl. unfold snapshot. lia.
    + rewrite Ha. unfold snapshot. lia.
  - by apply emitChange_currentChangingStores.
Qed.

Lemma emitChange_contract_witness :
  reachable demoChanged /\
  truthy (_isAnyOneStoreChanged demoChanged) = true /\
  emitted (emitChange demoChanged) = emitted demoChanged ++ [1] /\
  (forall later,
     readArray (heap (run later (emitChange demoChanged))) 1 = [7]).
Proof.
  split; [apply demoChanged_reachable|]. split; [reflexivity|].
  destruct (emitChange_contract demoChanged demoChanged_reachable) as [_ H].
  specialize (H eq_refl). cbv zeta in H.
  destruct H as (He & _ & _ & _ & _ & Hl & _). split; [exact He | exact Hl].
Defined.

(** C3: from a state in which the flag is down (a new group, or any group
    after a flush), let stores announce changes in any order and any number
    of times, then flush.  The flush emits one snapshot; it holds every store
    that changed exactly once, ordered by first change, and holds no other
    store, whatever the set held before. *)
Theorem flush_snapshot_is_first_changes (w : World) (changes : list Store) :
  reachable w ->
  truthy (_isAnyOneStoreChanged w) = false ->
  changes <> [] ->
  let changed := fold_left (fun acc s => onStoreChange s acc) changes w in
  let snapshot := readArray (heap (emitChange changed)) (length (heap w)) in
  emitted (emitChange changed) = emitted w ++ [length (heap w)] /\
  snapshot = firstChanges changes /\
  NoDup snapshot /\
  (forall s, s ∈ snapshot <-> s ∈ changes) /\
  (forall a b,
     (indexOf snapshot a < indexOf snapshot b)%Z
     <-> (indexOf changes a < indexOf changes b)%Z).
Proof.
  intros [Hwf Hinv]%reachable_invariant Ht Hne changed snapshot.
  destruct changes as [|c rest]; [done|].
  assert (changed
          = set_heap (<[_currentChangingStores w := firstChanges (c :: rest)]>
                        (heap w))
              (set_isAnyOneStoreChanged (Some true) w)) as Hchanged.
  { unfold changed. by apply onStoreChange_fold_lowered. }
  assert (truthy (_isAnyOneStoreChanged changed) = true) as Htc.
  { rewrite Hchanged. by destruct w. }
  assert (length (heap changed) = length (heap w)) as Hlen.
  { rewrite Hchanged. destruct w. unfold_methods. by rewrite length_insert. }
  assert (currentChangingStores changed = firstChanges (c :: rest)) as Hset.
  { rewrite Hchanged. destruct w. unfold wellFormed in Hwf. unfold_methods.
    by rewrite readArray_insert_eq. }
  assert (emitted changed = emitted w) as Hem.
  { rewrite Hchanged. by destruct w. }
  pose proof (emitChange_snapshot changed Htc) as (He & _ & Hs & _).
  rewrite Hlen in He, Hs. rewrite Hem in He. rewrite Hset in Hs.
  assert (snapshot = firstChanges (c :: rest)) as Hsnap by exact Hs.
  rewrite Hsnap.
  split; [done|]. split; [done|]. split; [apply firstChanges_NoDup|]. split.
  - intros s. apply firstChanges_elem.
  - intros a b. apply firstChanges_order.
Qed.

Lemma flush_snapshot_is_first_changes_witness :
  reachable (emitChange demoChanged) /\
  truthy (_isAnyOneStoreChanged (emitChange demoChanged)) = false /\
  [9; 7; 9] <> [] /\
  readArray
    (heap (emitChange
             (fold_left (fun acc s => onStoreChange s acc) [9; 7; 9]
                (emitChange demoChanged))))
    (length (heap (emitChange demoChanged)))
  = firstChanges [9; 7; 9].
Proof.
  assert (reachable (emitChange demoChanged)) as Hr.
  { exists (fun _ => true), [7; 9], None, demo, [StoreChanges 7; CallEmitChange].
    split; reflexivity. }
  split; [exact Hr|]. split; [reflexivity|]. split; [discriminate|].
  destruct (flush_snapshot_is_first_changes (emitChange demoChanged) [9; 7; 9]
              Hr eq_refl) as (_ & H & _); [discriminate|exact H].
Defined.

(** * The dispatch closure *)

(** C4, as the claim has it, fails: with [asap] false, a did-execute payload
    that carries a parent use case but is not system-trusted makes the
    closure flush the pending change of store 7. *)
Lemma nested_untrusted_didExecute_counterexample :
  reachable demoChanged /\
  asap demoChanged = false /\
  nonNull (parentUseCase nestedUntrusted) = true /\
  emitted demoChanged = [] /\
  emitted (tryToEmitChange DidExecutedPayload nestedUntrusted demoChanged) = [1] /\
  tryToEmitChange DidExecutedPayload nestedUntrusted demoChanged <> demoChanged.
Proof. split; [apply demoChanged_reachable|]. by repeat split. Qed.

(** C4 (amended): for every system-trusted did-execute or completed event,
    if [asap] is false and the event carries a parent use case the closure
    does nothing; otherwise it flushes: it does what [emitChange] does, so a
    notification goes out exactly when a store changed since the last
    flush. *)
Theorem trusted_completion_gate (payload : Payload)
    (meta : DispatcherPayloadMeta) (w : World) :
  reachable w ->
  isTrusted meta = true ->
  payload = DidExecutedPayload \/ payload = CompletedPayload ->
  (asap w = false /\ parentUseCase meta <> None ->
   tryToEmitChange payload meta w = w) /\
  (asap w = true \/ parentUseCase meta = None ->
   tryToEmitChange payload meta w = emitChange w /\
   (truthy (_isAnyOneStoreChanged w) = true ->
    emitted (tryToEmitChange payload meta w) = emitted w ++ [length (heap w)]) /\
   (truthy (_isAnyOneStoreChanged w) = false ->
    tryToEmitChange payload meta w = w)).
Proof.
  intros [Hwf Hinv]%reachable_invariant Htrusted Hkind.
  pose proof (guarded_emitChange w Hinv) as Hguard.
  split.
  - intros [Hasap Hparent]. unfold tryToEmitChange. rewrite Htrusted, Hasap.
    destruct (parentUseCase meta); [|done].
    by destruct Hkind as [-> | ->].
  - intros Hroot.
    assert (tryToEmitChange payload meta w = emitChange w) as Heq.
    { unfold tryToEmitChange. rewrite Htrusted. cbn [negb].
      assert (negb (asap w) && nonNull (parentUseCase meta) = false) as ->.
      { destruct Hroot as [-> | ->]; [done | by rewrite andb_false_r]. }
      rewrite Hguard. by destruct Hkind as [-> | ->]. }
    rewrite Heq. repeat split.
    + intros Ht. by apply emitChange_snapshot.
    + apply emitChange_idle.
Qed.

Lemma trusted_completion_gate_witness :
  reachable demoChanged /\
  isTrusted nestedTrusted = true /\
  asap demoChanged = false /\ parentUseCase nestedTrusted <> None /\
  tryToEmitChange CompletedPayload nestedTrusted demoChanged = demoChanged.
Proof.
  split; [apply demoChanged_reachable|]. split; [reflexivity|].
  split; [reflexivity|]. split; [discriminate|].
  destruct (trusted_completion_gate CompletedPayload nestedTrusted demoChanged
              demoChanged_reachable eq_refl (or_intror eq_refl)) as [H _].
  apply H. split; [reflexivity | discriminate].
Defined.

(** C5: an error event, trusted or not, nested or not, with [asap] on or
    off, makes the closure do what [emitChange] does; when a store changed
    since the last flush one notification is emitted at once. *)
Theorem error_event_flushes (meta : DispatcherPayloadMeta) (w : World) :
  reachable w ->
  tryToEmitChange ErrorPayload meta w = emitChange w /\
  (truthy (_isAnyOneStoreChanged w) = true ->
   emitted (tryToEmitChange ErrorPayload meta w)
     = emitted w ++ [length (heap w)] /\
   delivered (tryToEmitChange ErrorPayload meta w)
     = delivered w ++ map (fun h => (h, length (heap w))) (changeListeners w)).
Proof.
  intros [Hwf Hinv]%reachable_invariant.
  assert (tryToEmitChange ErrorPayload meta w = emitChange w) as Heq.
  { unfold tryToEmitChange. cbn [isErrorPayload].
    rewrite (guarded_emitChange w Hinv). by destruct (negb (isTrusted meta)). }
  rewrite Heq. split; [done|]. intros Ht.
  pose proof (emitChange_snapshot w Ht) as (He & Hd & _). done.
Qed.

Lemma error_event_flushes_witness :
  reachable demoChanged /\
  truthy (_isAnyOneStoreChanged demoChanged) = true /\
  emitted (tryToEmitChange ErrorPayload nestedTrusted demoChanged)
  = emitted demoChanged ++ [1].
Proof.
  split; [apply demoChanged_reachable|]. split; [reflexivity|].
  destruct (error_event_flushes nestedTrusted demoChanged demoChanged_reachable)
    as [_ H].
  destruct (H eq_refl) as [He _]. exact He.
Defined.

(** C6: for an event that is not system-trusted the closure calls
    [emitChange] whenever the set is non-empty, whatever the payload, the
    [asap] option and the parent use case are. *)
Theorem untrusted_event_flushes (payload : Payload)
    (meta : DispatcherPayloadMeta) (w : World) :
  isTrusted meta = false ->
  (currentChangingStores w <> [] ->
   tryToEmitChange payload meta w = emitChange w) /\
  (currentChangingStores w = [] -> tryToEmitChange payload meta w = w).
Proof.
  intros Htrusted. unfold tryToEmitChange. rewrite Htrusted. cbn [negb].
  split.
  - intros Hne%hasChangingStore_nonempty. by rewrite Hne.
  - intros Hempty. unfold hasChangingStore. by rewrite Hempty.
Qed.

Lemma untrusted_event_flushes_witness :
  isTrusted nestedUntrusted = false /\
  currentChangingStores demoChanged <> [] /\
  tryToEmitChange CompletedPayload nestedUntrusted demoChanged
  = emitChange demoChanged.
Proof.
  split; [reflexivity|]. split; [discriminate|].
  destruct (untrusted_event_flushes CompletedPayload nestedUntrusted
              demoChanged eq_refl) as [H _].
  apply H. discriminate.
Defined.

(** * Teardown *)

Lemma unplugged_storeEmitChange (store : Store) (w : World) :
  unplugged w -> storeEmitChange store w = w.
Proof. intros [Hs _]. unfold storeEmitChange. by rewrite Hs. Qed.

Lemma unplugged_dispatch (payload : Payload) (meta : DispatcherPayloadMeta)
    (w : World) :
  unplugged w -> dispatch payload meta w = w.
Proof. intros [_ Hd]. unfold dispatch. by rewrite Hd. Qed.

Lemma unplugged_events (events : list Op) (w : World) :
  unplugged w -> forallb isHostEvent events = true -> run events w = w.
Proof.
  intros Hun. unfold run.
  induction events as [|op events IH]; cbn [fold_left forallb]; [done|].
  intros [Hop Hrest]%andb_true_iff.
  destruct op as [store|payload meta| | | |]; try done; cbn [step].
  - rewrite unplugged_storeEmitChange by done. by apply IH.
  - rewrite unplugged_dispatch by done. by apply IH.
Qed.

(** C7: once [release()] has run, and whatever methods are called on the
    group afterwards, a store announcing a change and an event on the
    dispatch stream reach no closure of the group: the world, with its
    traces of emitted and delivered notifications, stays as it is. *)
Theorem no_flush_after_release (w : World) (later : list Op) :
  reachable w ->
  let released := run later (release w) in
  (forall store, storeEmitChange store released = released) /\
  (forall payload meta, dispatch payload meta released = released) /\
  (forall events, forallb isHostEvent events = true ->
     run events released = released /\
     emitted (run events released) = emitted released /\
     delivered (run events released) = delivered released).
Proof.
  intros Hrec%reachable_listenersRecorded released.
  assert (unplugged released) as Hun.
  { apply run_unplugged. by apply release_unplugs. }
  repeat split.
  - intros store. by apply unplugged_storeEmitChange.
  - intros payload meta. by apply unplugged_dispatch.
  - by apply unplugged_events.
  - by rewrite unplugged_events.
  - by rewrite unplugged_events.
Qed.

Lemma no_flush_after_release_witness :
  reachable demoChanged /\
  run [StoreChanges 9; Dispatches ErrorPayload nestedUntrusted]
    (run [CallOnChange 3] (release demoChanged))
  = run [CallOnChange 3] (release demoChanged).
Proof.
  split; [apply demoChanged_reachable|].
  destruct (no_flush_after_release demoChanged [CallOnChange 3]
              demoChanged_reachable) as (_ & _ & H).
  destruct (H [StoreChanges 9; Dispatches ErrorPayload nestedUntrusted] eq_refl)
    as [Heq _].
  exact Heq.
Defined.

(** C8: [release()] calls the recorded handlers one after the other, each
    once, in the order of the list, which is the order of insertion since
    [_registerStore] and [onChange] only append; the list is empty
    afterwards, so a second [release()] calls nothing. *)
Theorem release_calls_each_handler_once (w : World) :
  invoked (release w) = invoked w ++ _releaseHandlers w /\
  _releaseHandlers (release w) = [] /\
  invoked (release (release w)) = invoked (release w) /\
  (forall handler,
     _releaseHandlers (snd (onChange handler w))
     = _releaseHandlers w ++ [fst (onChange handler w)]) /\
  (forall store,
     exists releaseOnChangeHandler releaseOnDispatchHandler,
       _releaseHandlers (_registerStore store w)
       = _releaseHandlers w
           ++ [releaseOnChangeHandler; releaseOnDispatchHandler]).
Proof.
  split; [apply release_invoked|].
  split; [apply release_releaseHandlers|].
  split.
  { rewrite (release_invoked (release w)), release_releaseHandlers.
    by rewrite app_nil_r. }
  split.
  - intros handler. reflexivity.
  - intros store. eexists _, _. reflexivity.
Qed.

(** * The flag/set invariant *)

(** C10: a raised flag comes with a non-empty set.  The constructor
    establishes it; the change closure, the dispatch closure, [emitChange],
    [release] and every other operation keep it; so in every state a group
    can reach, testing the set's length before calling [emitChange] never
    hides a change the flag records. *)
Theorem raised_flag_has_stores :
  (forall validateStores stores0 options_asap w0,
     constructor validateStores stores0 options_asap = Some w0 ->
     wellFormed w0 /\ flagHasStores w0) /\
  (forall w store, wellFormed w -> flagHasStores (onStoreChange store w)) /\
  (forall w payload meta,
     flagHasStores w -> flagHasStores (tryToEmitChange payload meta w)) /\
  (forall w, flagHasStores (emitChange w)) /\
  (forall w, flagHasStores w -> flagHasStores (release w)) /\
  (forall w op,
     wellFormed w /\ flagHasStores w ->
     wellFormed (step w op) /\ flagHasStores (step w op)) /\
  (forall w,
     reachable w ->
     flagHasStores w /\
     (truthy (_isAnyOneStoreChanged w) = true -> hasChangingStore w = true) /\
     (if hasChangingStore w then emitChange w else w) = emitChange w).
Proof.
  split; [apply constructor_invariant|].
  split; [intros w store; by apply onStoreChange_flagHasStores|].
  split; [intros w payload meta; by apply tryToEmitChange_flagHasStores|].
  split; [apply emitChange_flagHasStores|].
  split.
  { intros w. apply sameChangeSet_flagHasStores, release_sameChangeSet. }
  split; [apply step_invariant|].
  intros w [Hwf Hinv]%reachable_invariant. repeat split.
  - done.
  - intros Ht. apply hasChangingStore_nonempty. by apply Hinv.
  - by apply guarded_emitChange.
Qed.

Lemma raised_flag_has_stores_witness :
  reachable demoChanged /\
  truthy (_isAnyOneStoreChanged demoChanged) = true /\
  hasChangingStore demoChanged = true.
Proof.
  split; [apply demoChanged_reachable|]. split; [reflexivity|].
  destruct raised_flag_has_stores as (_ & _ & _ & _ & _ & _ & H).
  destruct (H demoChanged demoChanged_reachable) as (_ & Hset & _).
  exact (Hset eq_refl).
Defined.

(** * State query *)

Lemma stateMapOf_null (production : bool) (storeToString storeName : Store -> string)
    (ss : list Store) :
  stateMapOf production storeToString storeName (fun _ => JSNull) ss
  = Returned (map (fun _ => JSNull) ss).
Proof.
  induction ss as [|s ss IH]; [done|].
  cbn [stateMapOf map typeof]. rewrite IH.
  by destruct production.
Qed.

Lemma ObjectAssign_null (target : list (string * JSValue)) (ss : list Store) :
  ObjectAssign target (map (fun _ => JSNull) ss) = target.
Proof. induction ss as [|s ss IH]; [done|]. exact IH. Qed.

Lemma primitive_typeof (v : JSValue) :
  isPrimitive v = true -> v <> JSNull -> typeof v <> "object".
Proof. by destruct v. Qed.

Lemma stateMapOf_rejects (storeToString storeName : Store -> string)
    (storeGetState : Store -> JSValue) (before after : list Store)
    (store : Store) :
  (forall s, s ∈ before -> typeof (storeGetState s) = "object") ->
  typeof (storeGetState store) <> "object" ->
  stateMapOf false storeToString storeName storeGetState
    (before ++ store :: after)
  = AssertionError (assertionMessage storeToString storeName store).
Proof.
  intros Hbefore Hstore. induction before as [|b before IH]; cbn [app stateMapOf].
  - apply String.eqb_neq in Hstore. by rewrite Hstore.
  - rewrite (Hbefore b) by apply list_elem_of_here. cbn.
    rewrite IH; [done|]. intros s Hs. apply Hbefore. by apply list_elem_of_further.
Qed.

(** X10: in development mode [getState] fails at the first store, in the
    order of the group's stores, whose state is not of type ["object"]
    (undefined, a boolean, a number, a string, a symbol, a function); the
    assertion message starts with that store's string conversion and its
    name.  Stores after it are not looked at. *)
Lemma getState_rejects_non_object (storeToString storeName : Store -> string)
    (storeGetState : Store -> JSValue) (w : World)
    (before after : list Store) (store : Store) :
  stores w = before ++ store :: after ->
  (forall s, s ∈ before -> typeof (storeGetState s) = "object") ->
  typeof (storeGetState store) <> "object" ->
  getState false storeToString storeName storeGetState w
  = AssertionError
      (storeToString store +:+ ": " +:+ storeName store +:+ assertionHint).
Proof.
  intros Hstores Hbefore Hstore. unfold getState. rewrite Hstores.
  by rewrite stateMapOf_rejects.
Qed.







(** C9, where the code departs from it: [null] is a primitive, yet in
    development mode a group whose stores return [null] from [getState()]
    raises no assertion, since [typeof null] is ["object"]; the merge then
    skips the [null] states.  In the group over stores 7 and 9, store 7
    returning [null] goes unreported next to the mapping of store 9. *)
Theorem getState_accepts_null_state (storeToString storeName : Store -> string) :
  isPrimitive JSNull = true /\
  (forall w,
     getState false storeToString storeName (fun _ => JSNull) w = Returned []) /\
  getState false storeToString storeName
    (fun store => if Nat.eqb store 7 then JSNull
                  else JSObject [("nine", JSBoolean true)]) demo
  = Returned [("nine", JSBoolean true)].
Proof.
  repeat split. intros w. unfold getState.
  by rewrite stateMapOf_null, ObjectAssign_null.
Qed.

(** * The constructor's wiring *)

Lemma registerStores_closed (ss : list Store) (w : World) :
  fold_left (fun acc store => _registerStore store acc) ss w
  = mkWorld (_releaseHandlers w ++ releaseHandlersFrom (nextFunctionRef w) ss)
      (_currentChangingStores w) (stores w) (_isAnyOneStoreChanged w) (asap w)
      (heap w) (storeListeners w ++ storeListenersFrom (nextFunctionRef w) ss)
      (dispatchListeners w ++ pipesFrom (nextFunctionRef w) ss)
      (changeListeners w) (nextFunctionRef w + 2 * length ss)
      (emitted w) (delivered w) (invoked w).
Proof.
  revert w. induction ss as [|s ss IH]; intros w.
  - destruct w. cbn. rewrite !app_nil_r. f_equal. lia.
  - cbn [fold_left]. rewrite IH. destruct w. unfold_methods.
    cbn [releaseHandlersFrom storeListenersFrom pipesFrom length].
    rewrite <- !app_assoc. cbn [app]. f_equal. lia.
Qed.

(** X1: a constructor call the validator accepts yields a group with one
    change listener per store, in the order of the stores; on its dispatch
    stream one pipe per store, in that order, and its own flush decision
    after all of them; the matching release handlers, two per store and one
    for the decision, in the order of registration; nothing pending and
    nothing emitted.  A call the validator rejects yields no group. *)
Theorem constructor_wiring (validateStores : list Store -> bool)
    (stores0 : list Store) (options_asap : option bool) :
  (validateStores stores0 = false ->
   constructor validateStores stores0 options_asap = None) /\
  (validateStores stores0 = true ->
   exists w0,
     constructor validateStores stores0 options_asap = Some w0 /\
     stores w0 = stores0 /\
     asap w0 = default false options_asap /\
     storeListeners w0 = storeListenersFrom 0 stores0 /\
     dispatchListeners w0
       = pipesFrom 0 stores0 ++ [tryToEmitChangeListener (2 * length stores0)] /\
     _releaseHandlers w0
       = releaseHandlersFrom 0 stores0
           ++ [RemoveDispatchListener (2 * length stores0)] /\
     changeListeners w0 = [] /\
     currentChangingStores w0 = [] /\
     _isAnyOneStoreChanged w0 = None /\
     emitted w0 = [] /\ delivered w0 = [] /\ invoked w0 = []).
Proof.
  unfold constructor. split; intros ->; [done|].
  eexists. split; [reflexivity|].
  rewrite registerStores_closed. unfold_methods.
  by destruct options_asap.
Qed.

Lemma constructor_wiring_witness :
  dispatchListeners demo
  = [delegatePayload 1 7; delegatePayload 3 9; tryToEmitChangeListener 4].
Proof.
  destruct (constructor_wiring (fun _ => true) [7; 9] None) as [_ H].
  destruct (H eq_refl) as (w0 & Hc & _ & _ & _ & Hd & _).
  vm_compute in Hc. injection Hc as <-. exact Hd.
Defined.

(** * When the dispatch closure flushes *)

Lemma tryToEmitChange_flushes (payload : Payload) (meta : DispatcherPayloadMeta)
    (w : World) :
  tryToEmitChange payload meta w
  = if flushes (asap w) payload meta
    then (if hasChangingStore w then emitChange w else w)
    else w.
Proof.
  unfold tryToEmitChange, flushes.
  destruct (isTrusted meta), payload, (asap w), (parentUseCase meta); reflexivity.
Qed.

(** X2: in every state a group can reach, the dispatch closure does what
    [emitChange] does when the event is not system-trusted, or is an error,
    or is a did-execute or completed event of a root use case or under
    [asap]; for every other event (a nested completion without [asap], any
    other trusted payload) it does nothing.  So a notification goes out
    exactly when such an event meets a raised flag. *)
Theorem flush_decision_table (payload : Payload) (meta : DispatcherPayloadMeta)
    (w : World) :
  reachable w ->
  tryToEmitChange payload meta w
  = (if flushes (asap w) payload meta then emitChange w else w) /\
  emitted (tryToEmitChange payload meta w)
  = (if flushes (asap w) payload meta && truthy (_isAnyOneStoreChanged w)
     then emitted w ++ [length (heap w)] else emitted w).
Proof.
  intros [Hwf Hinv]%reachable_invariant.
  rewrite tryToEmitChange_flushes, (guarded_emitChange w Hinv).
  split; [done|].
  destruct (flushes (asap w) payload meta); cbn [andb]; [|done].
  destruct (truthy (_isAnyOneStoreChanged w)) eqn:Ht.
  - by apply emitChange_snapshot.
  - by rewrite emitChange_idle.
Qed.

Lemma flush_decision_table_witness :
  reachable demoChanged /\
  tryToEmitChange OtherPayload nestedTrusted demoChanged = demoChanged.
Proof.
  split; [apply demoChanged_reachable|].
  destruct (flush_decision_table OtherPayload nestedTrusted demoChanged
              demoChanged_reachable) as [H _].
  exact H.
Defined.

(** * At most one notification per change *)

Lemma flushAttempt_cases (op : Op) (w : World) :
  isFlushAttempt op = true -> step w op = w \/ step w op = emitChange w.
Proof.
  destruct op as [store|payload meta| |handler|handler|]; try done; intros _.
  - cbn [step]. rewrite dispatch_closure.
    destruct (existsb _ _); [apply tryToEmitChange_cases | by left].
  - by right.
Qed.

Lemma flushAttempt_after_flush (op : Op) (w : World) :
  isFlushAttempt op = true -> step (emitChange w) op = emitChange w.
Proof.
  intros Hop. destruct (flushAttempt_cases op (emitChange w) Hop) as [-> | ->].
  - done.
  - apply emitChange_idle, emitChange_flag.
Qed.

(** X3: however many dispatch events and [emitChange()] calls follow one
    another with no store change in between, together they do what a single
    [emitChange()] does, or nothing: at most one notification is emitted. *)
Theorem one_flush_between_changes (ops : list Op) (w : World) :
  forallb isFlushAttempt ops = true ->
  (run ops w = w \/ run ops w = emitChange w) /\
  (emitted (run ops w) = emitted w \/
   emitted (run ops w) = emitted w ++ [length (heap w)]).
Proof.
  intros Hops.
  assert (run ops w = w \/ run ops w = emitChange w) as Hrun.
  { unfold run.
    assert (forall x, x = w \/ x = emitChange w ->
              fold_left step ops x = w \/ fold_left step ops x = emitChange w)
      as Hgen.
    { induction ops as [|op ops IH]; intros x Hx; cbn [fold_left]; [done|].
      cbn [forallb] in Hops. apply andb_true_iff in Hops as [Hop Hops].
      apply IH; [done|]. destruct Hx as [-> | ->].
      - by apply flushAttempt_cases.
      - right. by apply flushAttempt_after_flush. }
    apply Hgen. by left. }
  split; [done|]. destruct Hrun as [-> | ->]; [by left|].
  destruct (truthy (_isAnyOneStoreChanged w)) eqn:Ht.
  - right. by apply emitChange_snapshot.
  - left. by rewrite emitChange_idle.
Qed.

Lemma one_flush_between_changes_witness :
  emitted
    (run [Dispatches ErrorPayload nestedTrusted; CallEmitChange;
          Dispatches CompletedPayload nestedUntrusted] demoChanged)
  = emitted demoChanged ++ [1].
Proof.
  destruct (one_flush_between_changes
              [Dispatches ErrorPayload nestedTrusted; CallEmitChange;
               Dispatches CompletedPayload nestedUntrusted] demoChanged eq_refl)
    as [_ [H | H]].
  - vm_compute in H. discriminate H.
  - exact H.
Defined.

(** * Invariants of every reachable state *)

Lemma addStore_NoDup (store : Store) (array : list Store) :
  NoDup array -> NoDup (addStore store array).
Proof.
  intros Hnd. destruct (decide (store ∈ array)) as [Hin|Hin].
  - by rewrite addStore_present.
  - rewrite addStore_absent by done. apply NoDup_app. repeat split.
    + done.
    + intros x Hx ->%list_elem_of_singleton. done.
    + apply NoDup_singleton.
Qed.

Lemma addStore_elem (store x : Store) (array : list Store) :
  x ∈ addStore store array -> x = store \/ x ∈ array.
Proof.
  unfold addStore. destruct (indexOf array store =? -1)%Z; [|by right].
  intros [Hx | ->%list_elem_of_singleton]%elem_of_app; [by right | by left].
Qed.

Lemma keepsOtherArrays_readArray (w w' : World) (a : loc) :
  keepsOtherArrays w w' -> a < length (heap w) -> a <> _currentChangingStores w ->
  readArray (heap w') a = readArray (heap w) a.
Proof. intros (_ & _ & Hk) Hlt Hne. unfold readArray. by rewrite Hk. Qed.

Lemma removeListener_elem {A} (same : A -> bool) (x : A) (l : list A) :
  x ∈ removeListener same l -> x ∈ l.
Proof.
  induction l as [|y l IH]; cbn [removeListener]; [done|].
  destruct (same y && negb (existsb same l)).
  - intros Hx. by apply list_elem_of_further.
  - intros [-> | Hx]%elem_of_cons.
    + apply list_elem_of_here.
    + apply list_elem_of_further. by apply IH.
Qed.

Lemma callReleaseHandler_shrinks (h : ReleaseHandler) (w : World) :
  stores (callReleaseHandler h w) = stores w /\
  forall l, l ∈ storeListeners (callReleaseHandler h w) -> l ∈ storeListeners w.
Proof.
  destruct w, h; unfold_methods; split; try done.
  intros l. apply removeListener_elem.
Qed.

Lemma release_shrinks (w : World) :
  stores (release w) = stores w /\
  forall l, l ∈ storeListeners (release w) -> l ∈ storeListeners w.
Proof.
  unfold release.
  pose proof (fold_left_related
    (fun x y => stores y = stores x /\
                forall l, l ∈ storeListeners y -> l ∈ storeListeners x)
    (fun acc h => callReleaseHandler h acc) (_releaseHandlers w) w) as Hfold.
  destruct Hfold as [Hs Hl].
  - by intros x.
  - intros x y z [Hs1 Hl1] [Hs2 Hl2]. split; [congruence|]. intros l Hl.
    by apply Hl1, Hl2.
  - intros x h. apply callReleaseHandler_shrinks.
  - by destruct (fold_left _ _ _).
Qed.

Lemma onStoreChange_traces (store : Store) (w : World) :
  emitted (onStoreChange store w) = emitted w /\
  delivered (onStoreChange store w) = delivered w.
Proof.
  destruct w. unfold_methods.
  repeat match goal with |- context [if ?b then _ else _] => destruct b end;
    by split.
Qed.

(** A property the change closure of a registered store, [emitChange] and
    every change of the wiring preserve is preserved by every operation. *)
Lemma step_preserves (P : World -> Prop) :
  (forall w w',
     sameChangeSet w w' -> stores w' = stores w ->
     (forall l, l ∈ storeListeners w' -> l ∈ storeListeners w) ->
     P w -> P w') ->
  (forall w l, l ∈ storeListeners w -> P w -> P (onStoreChange (fst l) w)) ->
  (forall w, P w -> P (emitChange w)) ->
  forall w op, P w -> P (step w op).
Proof.
  intros Hwiring Hchange Hflush w op Hw.
  destruct op as [store|payload meta| |handler|handler|]; cbn [step].
  - unfold storeEmitChange.
    assert (forall L acc,
              (forall l, l ∈ L -> l ∈ storeListeners acc) -> P acc ->
              P (fold_left
                   (fun acc l => if Nat.eqb (fst l) store
                                 then onStoreChange (fst l) acc else acc)
                   L acc)) as Hgen.
    { induction L as [|l L IH]; intros acc HL Hacc; cbn [fold_left]; [done|].
      apply IH.
      - intros l' Hl'. destruct (Nat.eqb (fst l) store).
        + destruct (onStoreChange_sameWiring (fst l) acc)
            as (_ & _ & _ & _ & -> & _).
          apply HL. by apply list_elem_of_further.
        + apply HL. by apply list_elem_of_further.
      - destruct (Nat.eqb (fst l) store); [|done].
        apply Hchange; [|done]. apply HL, list_elem_of_here. }
    by apply Hgen.
  - unfold dispatch. apply fold_left_invariant; [|done].
    intros x [fn s|fn] Hx; [done|].
    destruct (tryToEmitChange_cases payload meta x) as [-> | ->]; [done|].
    by apply Hflush.
  - by apply Hflush.
  - apply (Hwiring w); [apply onChange_sameChangeSet | by destruct w
                        | by destruct w | done].
  - destruct (callReleaseHandler_shrinks
                (RemoveChangeStoreGroupListener handler) w) as [Hs Hl].
    apply (Hwiring w); [apply callReleaseHandler_sameChangeSet | done..].
  - destruct (release_shrinks w) as [Hs Hl].
    apply (Hwiring w); [apply release_sameChangeSet | done..].
Qed.

Lemma reachable_preserves (P : World -> Prop) :
  (forall validateStores stores0 options_asap w0,
     constructor validateStores stores0 options_asap = Some w0 -> P w0) ->
  (forall w op, P w -> P (step w op)) ->
  forall w, reachable w -> P w.
Proof.
  intros Hinit Hstep w (v & ss & o & w0 & ops & Hc & ->). unfold run.
  apply fold_left_invariant; [done|]. by eapply Hinit.
Qed.

Lemma constructor_closed (validateStores : list Store -> bool)
    (stores0 : list Store) (options_asap : option bool) (w0 : World) :
  constructor validateStores stores0 options_asap = Some w0 ->
  w0 = mkWorld
         (releaseHandlersFrom 0 stores0
            ++ [RemoveDispatchListener (2 * length stores0)])
         0 stores0 None (default false options_asap) [[]]
         (storeListenersFrom 0 stores0)
         (pipesFrom 0 stores0 ++ [tryToEmitChangeListener (2 * length stores0)])
         [] (S (2 * length stores0)) [] [] [].
Proof.
  unfold constructor. destruct (validateStores stores0); [|done].
  intros [= <-]. rewrite registerStores_closed. unfold_methods.
  by destruct options_asap.
Qed.

Lemma storeListenersFrom_elem (n : FunctionRef) (ss : list Store)
    (l : Store * FunctionRef) :
  l ∈ storeListenersFrom n ss -> fst l ∈ ss.
Proof.
  revert n. induction ss as [|s ss IH]; intros n; cbn [storeListenersFrom].
  - by intros ?%not_elem_of_nil.
  - intros [-> | Hl]%elem_of_cons.
    + apply list_elem_of_here.
    + apply list_elem_of_further. by eapply IH.
Qed.

Lemma constructor_sound (validateStores : list Store -> bool)
    (stores0 : list Store) (options_asap : option bool) (w0 : World) :
  constructor validateStores stores0 options_asap = Some w0 -> sound w0.
Proof.
  intros ->%constructor_closed. unfold sound, wellFormed, flagHasStores,
    listenersOfGroup, setOfGroup, snapshotsSound, flagTellsHistory,
    currentChangingStores. cbn.
  split; [lia|]. split; [done|]. split; [apply storeListenersFrom_elem|].
  split; [split; [constructor | by intros ? ?%not_elem_of_nil]|].
  split; [split; [constructor | by intros ? ?%not_elem_of_nil]|].
  by split.
Qed.

Lemma sound_wiring (w w' : World) :
  sameChangeSet w w' -> stores w' = stores w ->
  (forall l, l ∈ storeListeners w' -> l ∈ storeListeners w) ->
  sound w -> sound w'.
Proof.
  intros (Ha & Hf & Hh & He & _) Hs Hl.
  unfold sound, wellFormed, flagHasStores, listenersOfGroup, setOfGroup,
    snapshotsSound, flagTellsHistory, currentChangingStores.
  rewrite Ha, Hf, Hh, He, Hs.
  intros (Hwf & Hinv & Hlis & Hset & Hsnap & Hhist).
  split; [done|]. split; [done|].
  split; [intros l Hin; by apply Hlis, Hl|].
  by repeat (split; [done|]).
Qed.

Lemma sound_change (w : World) (l : Store * FunctionRef) :
  l ∈ storeListeners w -> sound w -> sound (onStoreChange (fst l) w).
Proof.
  intros Hl (Hwf & Hinv & Hlis & [Hnd Hsub] & [Hend Hsnap] & Hhist).
  pose proof (onStoreChange_keepsOtherArrays (fst l) w) as Hkeep.
  pose proof (onStoreChange_sameWiring (fst l) w)
    as (_ & Ha & Hs & _ & Hsl & _).
  pose proof (onStoreChange_traces (fst l) w) as [He _].
  pose proof (onStoreChange_currentChangingStores (fst l) w Hwf) as Hccs.
  pose proof (onStoreChange_flag (fst l) w) as Hflag.
  split; [by eapply keepsOtherArrays_wellFormed|].
  split; [by apply onStoreChange_flagHasStores|].
  split. { unfold listenersOfGroup. rewrite Hsl, Hs. done. }
  split.
  { unfold setOfGroup. rewrite Hccs, Hs. split.
    - apply addStore_NoDup. destruct (truthy _); [done | constructor].
    - intros s [-> | Hin]%addStore_elem; [by apply Hlis|].
      destruct (truthy _); [by apply Hsub | by apply not_elem_of_nil in Hin]. }
  split.
  { unfold snapshotsSound. rewrite He, Ha, Hs. split; [done|].
    intros a Hin. destruct (Hsnap a Hin) as (Hlt & Hne & Hnil & Hnda & Hsuba).
    rewrite (keepsOtherArrays_readArray w) by done.
    destruct Hkeep as (_ & Hlen & _). repeat split; try done. lia. }
  unfold flagTellsHistory. rewrite Hflag, Hccs. split; [done|].
  intros _. apply addStore_nonempty.
Qed.

Lemma sound_flush (w : World) : sound w -> sound (emitChange w).
Proof.
  intros Hsound.
  destruct (truthy (_isAnyOneStoreChanged w)) eqn:Ht;
    [|by rewrite emitChange_idle].
  destruct Hsound as (Hwf & Hinv & Hlis & [Hnd Hsub] & [Hend Hsnap] & Hhist).
  pose proof (emitChange_keepsOtherArrays w) as Hkeep.
  pose proof (emitChange_sameWiring w) as (_ & _ & Hs & _ & Hsl & _).
  pose proof (emitChange_snapshot w Ht) as (He & _ & Hnew & Hlen & Hflag & Ha).
  pose proof (emitChange_currentChangingStores w Hwf) as Hccs.
  unfold wellFormed in Hwf.
  split; [by eapply keepsOtherArrays_wellFormed|].
  split; [apply emitChange_flagHasStores|].
  split. { unfold listenersOfGroup. rewrite Hsl, Hs. done. }
  split. { unfold setOfGroup. by rewrite Hccs, Hs. }
  split.
  { unfold snapshotsSound. rewrite He, Ha, Hs, Hlen. split.
    - apply NoDup_app. repeat split; [done| |apply NoDup_singleton].
      intros a Hin ->%list_elem_of_singleton.
      destruct (Hsnap _ Hin) as (Hlt & _). lia.
    - intros a [Hin | ->%list_elem_of_singleton]%elem_of_app.
      + destruct (Hsnap a Hin) as (Hlt & Hne & Hnil & Hnda & Hsuba).
        rewrite (keepsOtherArrays_readArray w) by done.
        repeat split; try done. lia.
      + rewrite Hnew. repeat split; try done; try lia. by apply Hinv. }
  unfold flagTellsHistory. rewrite Hflag, Hccs. split; [done|].
  intros _. by apply Hinv.
Qed.

Lemma reachable_sound (w : World) : reachable w -> sound w.
Proof.
  apply reachable_preserves.
  - apply constructor_sound.
  - apply step_preserves.
    + apply sound_wiring.
    + apply sound_change.
    + apply sound_flush.
Qed.

(** X4: every array a group has ever emitted is an array of its own (not
    the internal one, not the array of another notification) and holds
    stores of the group only, at least one of them and none twice. *)
Theorem emitted_snapshots_sound (w : World) (a : loc) :
  reachable w -> a ∈ emitted w ->
  readArray (heap w) a <> [] /\
  NoDup (readArray (heap w) a) /\
  (forall s, s ∈ readArray (heap w) a -> s ∈ stores w) /\
  a <> _currentChangingStores w /\
  NoDup (emitted w).
Proof.
  intros (_ & _ & _ & _ & [Hnd Hsnap] & _)%reachable_sound Hin.
  destruct (Hsnap a Hin) as (_ & Hne & Hnil & Hnda & Hsub). done.
Qed.

Lemma emitted_snapshots_sound_witness :
  reachable (emitChange demoChanged) /\
  1 ∈ emitted (emitChange demoChanged) /\
  readArray (heap (emitChange demoChanged)) 1 <> [].
Proof.
  assert (reachable (emitChange demoChanged)) as Hr.
  { exists (fun _ => true), [7; 9], None, demo, [StoreChanges 7; CallEmitChange].
    split; reflexivity. }
  assert (1 ∈ emitted (emitChange demoChanged)) as Hin.
  { apply list_elem_of_here. }
  split; [exact Hr|]. split; [exact Hin|].
  destruct (emitted_snapshots_sound (emitChange demoChanged) 1 Hr Hin) as [H _].
  exact H.
Defined.

Lemma flag_stays_defined (w : World) (op : Op) :
  _isAnyOneStoreChanged w <> None -> _isAnyOneStoreChanged (step w op) <> None.
Proof.
  revert w op. apply step_preserves.
  - intros w w' (_ & -> & _) _ _. done.
  - intros w l _ _. by rewrite onStoreChange_flag.
  - intros w Hw. destruct (truthy (_isAnyOneStoreChanged w)) eqn:Ht.
    + destruct (emitChange_snapshot w Ht) as (_ & _ & _ & _ & -> & _). done.
    + by rewrite emitChange_idle.
Qed.

(** X5: in every state a group can reach, [hasChangingStore] answers
    whether any store has changed at least once since construction: it is
    true exactly when the flag has ever been assigned, and once true it
    stays true through every later operation, flushes included. *)
Theorem hasChangingStore_tells_history (w : World) :
  reachable w ->
  (hasChangingStore w = true <-> _isAnyOneStoreChanged w <> None) /\
  (hasChangingStore w = true ->
   forall later, hasChangingStore (run later w) = true).
Proof.
  intros Hr.
  assert (forall x, reachable x ->
            (hasChangingStore x = true <-> _isAnyOneStoreChanged x <> None))
    as Hiff.
  { intros x (_ & _ & _ & _ & _ & [Hnone Hsome])%reachable_sound.
    rewrite hasChangingStore_nonempty. split; [|done].
    intros Hne Hflag. by apply Hne, Hnone. }
  split; [by apply Hiff|].
  intros Hw later. apply Hiff; [by apply reachable_run|].
  apply Hiff in Hw; [|done]. unfold run.
  apply fold_left_invariant; [|done].
  intros x op. apply flag_stays_defined.
Qed.

Lemma hasChangingStore_tells_history_witness :
  reachable demoChanged /\
  hasChangingStore demoChanged = true /\
  hasChangingStore (run [CallEmitChange; CallRelease] demoChanged) = true.
Proof.
  split; [apply demoChanged_reachable|]. split; [reflexivity|].
  destruct (hasChangingStore_tells_history demoChanged demoChanged_reachable)
    as [_ H].
  exact (H eq_refl [CallEmitChange; CallRelease]).
Defined.

(** * Notifications and store changes *)

Lemma emitChange_measure (w : World) :
  length (emitted (emitChange w)) + pending (emitChange w)
  = length (emitted w) + pending w.
Proof.
  unfold pending. destruct (truthy (_isAnyOneStoreChanged w)) eqn:Ht.
  - destruct (emitChange_snapshot w Ht) as (-> & _ & _ & _ & -> & _).
    rewrite length_app. cbn. lia.
  - rewrite emitChange_idle by done. by rewrite Ht.
Qed.

Lemma step_measure (w : World) (op : Op) :
  length (emitted (step w op)) + pending (step w op)
  <= length (emitted w) + pending w + (if isStoreChange op then 1 else 0).
Proof.
  destruct op as [store|payload meta| |handler|handler|];
    cbn [step isStoreChange].
  - assert (emitted (storeEmitChange store w) = emitted w) as ->.
    { unfold storeEmitChange.
      apply (fold_left_related (fun x y => emitted y = emitted x)).
      - done.
      - intros x y z. congruence.
      - intros x l. destruct (Nat.eqb (fst l) store); [|done].
        apply onStoreChange_traces. }
    unfold pending. repeat destruct (truthy _); lia.
  - unfold dispatch.
    pose proof (fold_left_related
      (fun x y => length (emitted y) + pending y
                  = length (emitted x) + pending x)
      (fun acc l =>
         match l with
         | delegatePayload _ _ => acc
         | tryToEmitChangeListener _ => tryToEmitChange payload meta acc
         end) (dispatchListeners w) w) as Hfold.
    rewrite Hfold; [lia|done| |].
    + intros x y z. congruence.
    + intros x [fn s|fn]; [done|].
      destruct (tryToEmitChange_cases payload meta x) as [-> | ->]; [done|].
      apply emitChange_measure.
  - rewrite emitChange_measure. lia.
  - destruct (onChange_sameChangeSet handler w) as (_ & Hf & _ & He & _).
    unfold pending. rewrite Hf, He. lia.
  - destruct (callReleaseHandler_sameChangeSet
                (RemoveChangeStoreGroupListener handler) w)
      as (_ & Hf & _ & He & _).
    unfold pending. rewrite Hf, He. lia.
  - destruct (release_sameChangeSet w) as (_ & Hf & _ & He & _).
    unfold pending. rewrite Hf, He. lia.
Qed.

(** X6: a group never emits more notifications than its stores announced
    changes.  Along any run, the notifications emitted plus the one a
    raised flag still owes grow by at most the number of store changes; a
    newly constructed group owes none. *)
Theorem notifications_bounded_by_changes (ops : list Op) (w : World) :
  length (emitted (run ops w)) + pending (run ops w)
  <= length (emitted w) + pending w + countb isStoreChange ops /\
  (forall validateStores stores0 options_asap,
     constructor validateStores stores0 options_asap = Some w ->
     length (emitted (run ops w)) <= countb isStoreChange ops).
Proof.
  assert (length (emitted (run ops w)) + pending (run ops w)
          <= length (emitted w) + pending w + countb isStoreChange ops) as Hrun.
  { unfold run. revert w.
    induction ops as [|op ops IH]; intros w; cbn [fold_left countb]; [lia|].
    specialize (IH (step w op)). pose proof (step_measure w op). lia. }
  split; [done|]. intros v ss o ->%constructor_closed.
  cbn in Hrun. cbn. lia.
Qed.

Lemma notifications_bounded_by_changes_witness :
  length
    (emitted
       (run [StoreChanges 7; Dispatches ErrorPayload nestedTrusted;
             Dispatches ErrorPayload nestedTrusted; StoreChanges 7;
             StoreChanges 9; CallEmitChange] demo))
  <= 3.
Proof.
  destruct (notifications_bounded_by_changes
              [StoreChanges 7; Dispatches ErrorPayload nestedTrusted;
               Dispatches ErrorPayload nestedTrusted; StoreChanges 7;
               StoreChanges 9; CallEmitChange] demo) as [_ H].
  exact (H (fun _ => true) [7; 9] None eq_refl).
Defined.

(** * From the host's events to the closures, for a whole run *)

Lemma step_stores (w : World) (op : Op) : stores (step w op) = stores w.
Proof.
  revert w op.
  assert (forall s0 w op, stores w = s0 -> stores (step w op) = s0) as H.
  { intros s0. apply step_preserves.
    - intros w w' _ Hs _. congruence.
    - intros w l _ <-. by destruct (onStoreChange_sameWiring (fst l) w)
                         as (_ & _ & Hs & _).
    - intros w <-. by destruct (emitChange_sameWiring w) as (_ & _ & Hs & _). }
  intros w op. by apply H.
Qed.

Lemma run_stores (ops : list Op) (w : World) : stores (run ops w) = stores w.
Proof.
  unfold run.
  apply (fold_left_invariant (fun x => stores x = stores w)); [|done].
  intros x op <-. apply step_stores.
Qed.

Lemma listensTo_foreign (store : Store) (w : World) :
  listenersOfGroup w -> store ∉ stores w -> listensTo store w = false.
Proof.
  unfold listenersOfGroup, listensTo. intros Hlis Hnot.
  assert (forall L : list (Store * FunctionRef),
            (forall l, l ∈ L -> fst l ∈ stores w) ->
            existsb (fun l => Nat.eqb (fst l) store) L = false) as Hgen.
  { induction L as [|l L IH]; intros HL; [done|]. cbn [existsb].
    rewrite IH by (intros l' Hl'; apply HL; by apply list_elem_of_further).
    match goal with |- context [Nat.eqb ?a store] =>
      destruct (Nat.eqb a store) eqn:E end; [|done].
    apply Nat.eqb_eq in E. exfalso. apply Hnot. rewrite <- E.
    apply HL, list_elem_of_here. }
  by apply Hgen.
Qed.

(** X7: as long as [release()] has not been called, a change announced by
    a store of the group runs the change closure exactly as one call
    (even when the store was listed more than once), a change announced
    by any other store leaves the group untouched, and every event on the
    dispatch stream runs the dispatch closure. *)
Theorem unreleased_group_runs_closures (validateStores : list Store -> bool)
    (stores0 : list Store) (options_asap : option bool) (w0 : World)
    (ops : list Op) :
  constructor validateStores stores0 options_asap = Some w0 ->
  existsb isRelease ops = false ->
  (forall store, store ∈ stores0 ->
     storeEmitChange store (run ops w0) = onStoreChange store (run ops w0)) /\
  (forall store, store ∉ stores0 ->
     storeEmitChange store (run ops w0) = run ops w0) /\
  (forall payload meta,
     dispatch payload meta (run ops w0)
     = tryToEmitChange payload meta (run ops w0)).
Proof.
  intros Hc Hops.
  assert (reachable (run ops w0)) as Hr.
  { by exists validateStores, stores0, options_asap, w0, ops. }
  apply reachable_sound in Hr as (Hwf & _ & Hlis & _).
  assert (plugged (run ops w0)) as Hpl.
  { apply run_plugged; [done|]. by eapply constructor_plugged. }
  assert (stores (run ops w0) = stores0) as Hs.
  { rewrite run_stores. by apply constructor_closed in Hc as ->. }
  destruct (plugged_events _ Hwf Hpl) as [Hchange Hdispatch].
  split; [|split; [|done]].
  - intros store Hin. apply Hchange. by rewrite Hs.
  - intros store Hnot. rewrite storeEmitChange_closure by done.
    rewrite listensTo_foreign; [done..|]. by rewrite Hs.
Qed.

Lemma unreleased_group_runs_closures_witness :
  storeEmitChange 8 (run [StoreChanges 9; CallOnChange 3] demo)
  = run [StoreChanges 9; CallOnChange 3] demo.
Proof.
  destruct (unreleased_group_runs_closures (fun _ => true) [7; 9] None demo
              [StoreChanges 9; CallOnChange 3] eq_refl eq_refl)
    as (_ & H & _).
  apply H. intros Hin. vm_compute in Hin.
  apply elem_of_cons in Hin as [Hin | Hin]; [discriminate Hin|].
  apply elem_of_cons in Hin as [Hin | Hin]; [discriminate Hin|].
  by apply not_elem_of_nil in Hin.
Defined.

(** * Subscribers *)

Lemma removeListener_last {A} (same : A -> bool) (l : list A) (x : A) :
  same x = true -> removeListener same (l ++ [x]) = l.
Proof.
  intros Hx. induction l as [|y l IH]; cbn [app removeListener existsb].
  - by rewrite Hx.
  - rewrite existsb_app. cbn [existsb]. rewrite Hx. cbn [orb].
    rewrite orb_true_r. cbn [negb]. rewrite andb_false_r. by rewrite IH.
Qed.

(** X8: subscribing with [onChange] and then calling the function it
    returned leaves the list of subscribers as it was, so a flush then
    delivers to the same subscribers as before; in between, a flush hands
    the snapshot to the new subscriber. *)
Theorem onChange_then_unsubscribe (handler : Handler) (w : World) :
  changeListeners
    (callReleaseHandler (fst (onChange handler w)) (snd (onChange handler w)))
  = changeListeners w /\
  delivered
    (emitChange
       (callReleaseHandler (fst (onChange handler w)) (snd (onChange handler w))))
  = delivered (emitChange w) /\
  (truthy (_isAnyOneStoreChanged w) = true ->
   (handler, length (heap w)) ∈ delivered (emitChange (snd (onChange handler w)))).
Proof.
  assert (changeListeners
            (callReleaseHandler (fst (onChange handler w))
               (snd (onChange handler w)))
          = changeListeners w) as Hcl.
  { destruct w. unfold_methods. apply removeListener_last, Nat.eqb_refl. }
  split; [done|]. split.
  - destruct (truthy (_isAnyOneStoreChanged w)) eqn:Ht.
    + rewrite !emitChange_closed; [|done|by destruct w].
      unfold_methods. rewrite Hcl. by destruct w.
    + rewrite !emitChange_idle; [|done|by destruct w]. by destruct w.
  - intros Ht. rewrite emitChange_closed by (by destruct w).
    destruct w. unfold_methods. rewrite map_app. apply elem_of_app. right.
    apply elem_of_app. right. apply list_elem_of_here.
Qed.

Lemma onChange_then_unsubscribe_witness :
  truthy (_isAnyOneStoreChanged demoChanged) = true /\
  (3, 1) ∈ delivered (emitChange (snd (onChange 3 demoChanged))).
Proof.
  split; [reflexivity|].
  destruct (onChange_then_unsubscribe 3 demoChanged) as (_ & _ & H).
  exact (H eq_refl).
Defined.

Lemma countb_app {A} (f : A -> bool) (l1 l2 : list A) :
  countb f (l1 ++ l2) = countb f l1 + countb f l2.
Proof. induction l1 as [|x l1 IH]; cbn [app countb]; [done|]. rewrite IH. lia. Qed.

Lemma existsb_countb {A} (f : A -> bool) (l : list A) :
  existsb f l = true -> 1 <= countb f l.
Proof.
  induction l as [|x l IH]; cbn [existsb countb]; [done|].
  destruct (f x); [lia|]. cbn [orb]. intros H. apply IH in H. lia.
Qed.

Lemma countb_removeListener (x h : Handler) (l : list Handler) :
  countb (Nat.eqb x) (removeListener (Nat.eqb h) l)
  = if Nat.eqb x h then pred (countb (Nat.eqb x) l) else countb (Nat.eqb x) l.
Proof.
  induction l as [|y l IH]; cbn [removeListener countb].
  - by destruct (Nat.eqb x h).
  - destruct (Nat.eqb_spec h y) as [<-|Hhy]; cbn [andb].
    + destruct (existsb (Nat.eqb h) l) eqn:Hex; cbn [negb].
      * cbn [countb]. rewrite IH.
        destruct (Nat.eqb_spec x h) as [->|Hxh]; [|done].
        apply existsb_countb in Hex. lia.
      * destruct (Nat.eqb_spec x h) as [->|Hxh]; [lia|]. done.
    + cbn [countb]. rewrite IH.
      destruct (Nat.eqb_spec x h) as [->|Hxh]; [|done].
      destruct (Nat.eqb_spec h y) as [|_]; [done|]. lia.
Qed.

Lemma callReleaseHandlers_unsubscribe (hs : list ReleaseHandler) (w : World) :
  (forall handler,
     countb (Nat.eqb handler) (changeListeners w)
     <= countb (isRemovalOf handler) hs) ->
  changeListeners (fold_left (fun acc h => callReleaseHandler h acc) hs w) = [].
Proof.
  revert w. induction hs as [|h hs IH]; intros w Hrec; cbn [fold_left].
  - destruct (changeListeners w) as [|x cl]; [done|].
    specialize (Hrec x). cbn in Hrec. rewrite Nat.eqb_refl in Hrec. lia.
  - apply IH. intros x. specialize (Hrec x). cbn [countb] in Hrec.
    destruct w, h as [store fn|fn|handler]; unfold_methods;
      cbn [isRemovalOf] in Hrec; try lia.
    rewrite countb_removeListener. destruct (Nat.eqb x handler); lia.
Qed.

Lemma step_subscribersRecorded (w : World) (op : Op) :
  subscribersRecorded w -> subscribersRecorded (step w op).
Proof.
  intros Hrec.
  assert (forall w', sameWiring w w' -> subscribersRecorded w') as Hsame.
  { intros w' (Hr & _ & _ & _ & _ & _ & Hc & _). unfold subscribersRecorded.
    by rewrite Hr, Hc. }
  destruct op as [store|payload meta| |handler|handler|]; cbn [step].
  - apply Hsame, storeEmitChange_sameWiring.
  - apply Hsame, dispatch_sameWiring.
  - apply Hsame, emitChange_sameWiring.
  - intros x. specialize (Hrec x). destruct w. unfold_methods.
    rewrite !countb_app. cbn [countb isRemovalOf]. lia.
  - intros x. specialize (Hrec x). destruct w. unfold_methods.
    rewrite countb_removeListener. destruct (Nat.eqb x handler); lia.
  - intros x. unfold release.
    pose proof (callReleaseHandlers_unsubscribe (_releaseHandlers w) w Hrec)
      as Hnil.
    destruct (fold_left _ _ _). unfold_methods. by rewrite Hnil.
Qed.

Lemma reachable_subscribersRecorded (w : World) :
  reachable w -> subscribersRecorded w.
Proof.
  apply reachable_preserves.
  - intros v ss o w0 ->%constructor_closed. intros x. cbn. lia.
  - apply step_subscribersRecorded.
Qed.

Lemma callReleaseHandlers_changeListeners (hs : list ReleaseHandler) (w : World) :
  changeListeners w = [] ->
  changeListeners (fold_left (fun acc h => callReleaseHandler h acc) hs w) = [].
Proof.
  apply (fold_left_invariant (fun x => changeListeners x = [])).
  intros x h Hx. destruct x, h; unfold_methods; by subst.
Qed.

Lemma unsubscribed_step (w : World) (op : Op) :
  isSubscription op = false -> changeListeners w = [] ->
  changeListeners (step w op) = [] /\ delivered (step w op) = delivered w.
Proof.
  intros Hop Hcl.
  assert (forall x, changeListeners x = [] ->
            changeListeners (emitChange x) = [] /\
            delivered (emitChange x) = delivered x) as Hflush.
  { intros x Hx. destruct (truthy (_isAnyOneStoreChanged x)) eqn:Ht.
    - destruct (emitChange_snapshot x Ht) as (_ & Hd & _).
      destruct (emitChange_sameWiring x) as (_ & _ & _ & _ & _ & _ & Hc & _).
      rewrite Hd, Hc, Hx. cbn. by rewrite app_nil_r.
    - by rewrite emitChange_idle. }
  destruct op as [store|payload meta| |handler|handler|]; cbn [step]; try done.
  - destruct (storeEmitChange_sameWiring store w)
      as (_ & _ & _ & _ & _ & _ & Hc & _).
    split; [congruence|]. unfold storeEmitChange.
    apply (fold_left_related (fun x y => delivered y = delivered x)).
    + done.
    + intros x y z. congruence.
    + intros x l. destruct (Nat.eqb (fst l) store); [|done].
      apply onStoreChange_traces.
  - unfold dispatch.
    apply (fold_left_invariant
             (fun x => changeListeners x = [] /\ delivered x = delivered w));
      [|done].
    intros x [fn s|fn] [Hx Hd]; [done|].
    destruct (tryToEmitChange_cases payload meta x) as [-> | ->]; [done|].
    destruct (Hflush x Hx) as [Hc' Hd']. split; congruence.
  - by apply Hflush.
  - destruct w. unfold_methods. by subst.
  - split.
    + unfold release.
      pose proof (callReleaseHandlers_changeListeners (_releaseHandlers w) w Hcl).
      by destruct (fold_left _ _ _).
    + by destruct (release_sameChangeSet w) as (_ & _ & _ & _ & Hd).
Qed.

(** X9: [release()] also takes every [onChange] subscriber off, however
    the subscribers came and went before; until somebody subscribes again,
    nothing is delivered any more, not even by a direct [emitChange()]. *)
Theorem release_unsubscribes_everyone (w : World) (later : list Op) :
  reachable w ->
  existsb isSubscription later = false ->
  changeListeners (release w) = [] /\
  changeListeners (run later (release w)) = [] /\
  delivered (run later (release w)) = delivered (release w).
Proof.
  intros Hrec%reachable_subscribersRecorded Hlater.
  assert (changeListeners (release w) = []) as Hnil.
  { unfold release.
    pose proof (callReleaseHandlers_unsubscribe (_releaseHandlers w) w Hrec).
    by destruct (fold_left _ _ _). }
  split; [done|]. unfold run. revert Hlater. generalize (release w) Hnil.
  induction later as [|op later IH]; intros x Hx Hlater; cbn [fold_left];
    [done|].
  cbn [existsb] in Hlater. apply orb_false_iff in Hlater as [Hop Hlater].
  destruct (unsubscribed_step x op Hop Hx) as [Hc Hd].
  destruct (IH (step x op) Hc Hlater) as [Hc' Hd']. split; congruence.
Qed.

Lemma release_unsubscribes_everyone_witness :
  delivered
    (run [CallEmitChange]
       (release (run [CallOnChange 3; CallOnChange 3; StoreChanges 7] demo)))
  = [].
Proof.
  assert (reachable (run [CallOnChange 3; CallOnChange 3; StoreChanges 7] demo))
    as Hr.
  { exists (fun _ => true), [7; 9], None, demo,
      [CallOnChange 3; CallOnChange 3; StoreChanges 7]. split; reflexivity. }
  destruct (release_unsubscribes_everyone _ [CallEmitChange] Hr eq_refl)
    as (_ & _ & H).
  exact H.
Defined.

(** * State query, further *)

Lemma getState_rejects_non_object_witness :
  getState false (fun _ => "[object Object]")
    (fun store => if Nat.eqb store 7 then "seven" else "nine")
    (fun store => if Nat.eqb store 7 then JSObject [] else JSNumber 0) demo
  = AssertionError ("[object Object]: nine" +:+ assertionHint).
Proof.
  apply (getState_rejects_non_object (fun _ => "[object Object]")
           (fun store => if Nat.eqb store 7 then "seven" else "nine")
           (fun store => if Nat.eqb store 7 then JSObject [] else JSNumber 0)
           demo [7] [] 9).
  - reflexivity.
  - intros s Hs. apply list_elem_of_singleton in Hs. by subst s.
  - discriminate.
Defined.





(** * Stores made by [createStore] *)








(** * From construction to the first notification *)

Lemma run_subscriptions (handlers : list Handler) (w : World) :
  run (map CallOnChange handlers) w
  = set_releaseHandlers
      (_releaseHandlers w ++ map RemoveChangeStoreGroupListener handlers)
      (set_changeListeners (changeListeners w ++ handlers) w).
Proof.
  unfold run. revert w.
  induction handlers as [|h handlers IH]; intros w; cbn [map fold_left step].
  - destruct w. unfold_methods. by rewrite !app_nil_r.
  - rewrite IH. destruct w. unfold_methods. by rewrite <- !app_assoc.
Qed.

(** X14: subscribe handlers to a new group, let its stores announce
    changes in any order and number, then let one event arrive for which
    the dispatch closure flushes (an untrusted event, an error, the
    completion of a root use case, or any completion under [asap]).  The
    group emits exactly one notification; its array holds the changed
    stores, each once, in the order of their first change, and every
    subscriber receives that array once, in the order of subscription. *)
Theorem first_notification (validateStores : list Store -> bool)
    (stores0 : list Store) (options_asap : option bool) (w0 : World)
    (handlers : list Handler) (changes : list Store)
    (payload : Payload) (meta : DispatcherPayloadMeta) :
  constructor validateStores stores0 options_asap = Some w0 ->
  changes <> [] ->
  Forall (fun s => s ∈ stores0) changes ->
  flushes (asap w0) payload meta = true ->
  let w := run (map CallOnChange handlers ++ map StoreChanges changes
                  ++ [Dispatches payload meta]) w0 in
  emitted w = [1] /\
  readArray (heap w) 1 = firstChanges changes /\
  delivered w = map (fun h => (h, 1)) handlers /\
  _isAnyOneStoreChanged w = Some false.
Proof.
  intros Hc Hne Hall Hflush w.
  assert (plugged (run (map CallOnChange handlers) w0)) as Hpl.
  { apply run_plugged; [|by eapply constructor_plugged].
    clear. induction handlers as [|h handlers IH]; [done|]. exact IH. }
  pose proof Hc as Hclosed. apply constructor_closed in Hclosed.
  set (w1 := run (map CallOnChange handlers) w0) in *.
  assert (w1 = set_releaseHandlers
                 (_releaseHandlers w0
                    ++ map RemoveChangeStoreGroupListener handlers)
                 (set_changeListeners (changeListeners w0 ++ handlers) w0))
    as Hw1 by apply run_subscriptions.
  assert (wellFormed w1) as Hwf1.
  { rewrite Hw1, Hclosed. unfold wellFormed. cbn. lia. }
  assert (stores w1 = stores0) as Hs1.
  { rewrite Hw1, Hclosed. reflexivity. }
  set (w2 := run (map StoreChanges changes) w1).
  assert (w2 = set_heap
                 (<[_currentChangingStores w1 := firstChanges changes]> (heap w1))
                 (set_isAnyOneStoreChanged (Some true) w1)) as Hw2.
  { unfold w2. rewrite run_storeChanges; [|done|done|by rewrite Hs1].
    destruct changes as [|c rest]; [done|].
    apply onStoreChange_fold_lowered; [done|].
    rewrite Hw1, Hclosed. reflexivity. }
  assert (w = dispatch payload meta w2) as ->.
  { unfold w, w2, w1, run. by rewrite !fold_left_app. }
  assert (dispatch payload meta w2 = emitChange w2) as ->.
  { rewrite dispatch_closure.
    assert (existsb isTryToEmitChange (dispatchListeners w2) = true) as ->.
    { destruct Hpl as [Hd _]. rewrite Hw2. by destruct w1. }
    rewrite tryToEmitChange_flushes.
    assert (asap w2 = asap w0) as ->.
    { rewrite Hw2, Hw1. by destruct w0. }
    rewrite Hflush.
    assert (hasChangingStore w2 = true) as ->; [|done].
    apply hasChangingStore_nonempty. rewrite Hw2. unfold currentChangingStores.
    destruct w1. unfold wellFormed in Hwf1. unfold_methods.
    rewrite readArray_insert_eq by done. by destruct changes. }
  assert (truthy (_isAnyOneStoreChanged w2) = true) as Ht.
  { rewrite Hw2. by destruct w1. }
  destruct (emitChange_snapshot w2 Ht) as (He & Hd & Hnew & _ & Hf & _).
  assert (length (heap w2) = 1) as Hlen.
  { rewrite Hw2, Hw1, Hclosed. reflexivity. }
  rewrite Hlen in He, Hd, Hnew.
  rewrite He, Hd, Hnew, Hf.
  rewrite Hw2, Hw1, Hclosed. unfold currentChangingStores. cbn.
  by repeat split.
Qed.

Lemma first_notification_witness :
  let w := run (map CallOnChange [3; 4] ++ map StoreChanges [9; 7; 9]
                  ++ [Dispatches DidExecutedPayload
                        {| isTrusted := true; parentUseCase := None |}]) demo in
  emitted w = [1] /\ readArray (heap w) 1 = [9; 7] /\
  delivered w = [(3, 1); (4, 1)].
Proof.
  intros w.
  destruct (first_notification (fun _ => true) [7; 9] None demo [3; 4] [9; 7; 9]
              DidExecutedPayload {| isTrusted := true; parentUseCase := None |}
              eq_refl) as (He & Hs & Hd & _).
  - discriminate.
  - repeat constructor.
  - reflexivity.
  - split; [exact He|]. split; [exact Hs | exact Hd].
Defined.

(** * The array behind the getter *)

(** X15: the array the [currentChangingStores] getter hands out is the
    internal array itself, and the group keeps that one array for life:
    whatever happens later, reading the array obtained earlier gives the
    group's current set, so a caller holding it sees the set emptied and
    refilled by the first store change after a flush, unlike a subscriber
    holding an emitted array. *)
Theorem getter_array_is_live (w : World) (later : list Op) :
  reachable w ->
  _currentChangingStores (run later w) = _currentChangingStores w /\
  readArray (heap (run later w)) (_currentChangingStores w)
  = currentChangingStores (run later w) /\
  (truthy (_isAnyOneStoreChanged w) = false ->
   forall store, listensTo store w = true ->
     readArray (heap (storeEmitChange store w)) (_currentChangingStores w)
     = [store]).
Proof.
  intros [Hwf _]%reachable_invariant.
  destruct (run_keepsOtherArrays later w) as (Ha & _).
  split; [done|]. split; [unfold currentChangingStores; by rewrite Ha|].
  intros Ht store Hlisten.
  rewrite storeEmitChange_closure, Hlisten by done.
  pose proof (onStoreChange_currentChangingStores store w Hwf) as Hccs.
  unfold currentChangingStores at 1 in Hccs.
  destruct (onStoreChange_sameWiring store w) as (_ & Hics & _).
  rewrite Hics in Hccs. by rewrite Hccs, Ht.
Qed.

Lemma getter_array_is_live_witness :
  reachable (emitChange demoChanged) /\
  readArray (heap (emitChange demoChanged))
    (_currentChangingStores (emitChange demoChanged)) = [7] /\
  readArray (heap (storeEmitChange 9 (emitChange demoChanged)))
    (_currentChangingStores (emitChange demoChanged)) = [9].
Proof.
  assert (reachable (emitChange demoChanged)) as Hr.
  { exists (fun _ => true), [7; 9], None, demo, [StoreChanges 7; CallEmitChange].
    split; reflexivity. }
  split; [exact Hr|]. split; [reflexivity|].
  destruct (getter_array_is_live (emitChange demoChanged) [] Hr) as (_ & _ & H).
  apply (H eq_refl 9). reflexivity.
Defined.
